(** * OpenOligo: the pinout registry of [openoligo/hal/board.py]

    A shallow embedding of the module [openoligo.hal.board] (the table
    [fixed], [list_configurable_pins] and the class [Pinout]) together with
    the properties of its natural-language specification, and of the
    validator [ValidSeq] of [openoligo.api.models].

    Conventions of the embedding.
    - A Python [str] is a [string]; [str.lower] is modelled on ASCII names
      (bytes outside [A-Z] are left unchanged).
    - A Python [dict] is an insertion-ordered association list with
      distinct keys: [d[k] = v] overwrites in place or appends, exactly
      as CPython does, so that [list(d)], [d.values()] and [d.items()]
      come out in the order the interpreter yields them.
    - [raise] is an explicit result type; the only mutable state touched
      by the constructor, [self.__pinout], is threaded through the calls.
    - A device is the pair of its class and its pin.  Nothing in the
      module changes a device, so a value of the model stands for the
      object: two lookups return the identical instance when they return
      the same binding of the table. *)

From Stdlib Require Import String Ascii.
From stdpp Require Import base decidable option list strings finite.

Local Open Scope string_scope.
Local Open Scope list_scope.

(* ================================================================== *)
(** ** Python strings *)

(** [str.lower] on one ASCII character. *)
Definition ascii_lower (c : ascii) : ascii :=
  let n := nat_of_ascii c in
  if ((65 <=? n)%nat && (n <=? 90)%nat)%bool then ascii_of_nat (n + 32) else c.

(** [str.lower]. *)
Fixpoint lower (s : string) : string :=
  match s with
  | EmptyString => EmptyString
  | String c s' => String (ascii_lower c) (lower s')
  end.

(** [s.startswith(p)]. *)
Definition startswith (s p : string) : bool := String.prefix p s.

(* ================================================================== *)
(** ** Python dictionaries *)

Abbreviation dict V := (list (string * V)%type).

Section Dict.
Context {V : Type}.

(** [list(d)] / [d.keys()] *)
Definition keys (d : dict V) : list string := fst <$> d.
(** [d.values()] *)
Definition values (d : dict V) : list V := snd <$> d.
(** [d.items()] *)
Definition items (d : dict V) : list (string * V) := d.

(** [d[k]]; [None] stands for [KeyError]. *)
Fixpoint dict_getitem (k : string) (d : dict V) : option V :=
  match d with
  | [] => None
  | (k', v') :: d' => if decide (k' = k) then Some v' else dict_getitem k d'
  end.

(** [d[k] = v] *)
Fixpoint dict_setitem (k : string) (v : V) (d : dict V) : dict V :=
  match d with
  | [] => [(k, v)]
  | (k', v') :: d' =>
      if decide (k' = k) then (k', v) :: d' else (k', v') :: dict_setitem k v d'
  end.

(** A well-formed dictionary has no repeated key. *)
Definition dict_wf (d : dict V) : Prop := NoDup (keys d).
End Dict.

(* ================================================================== *)
(** ** Exceptions *)

Inductive Result (E A : Type) : Type :=
| Return (a : A)
| Raise (e : E).
Arguments Return {E A} a.
Arguments Raise {E A} e.

Definition bind {E A B} (m : Result E A) (f : A -> Result E B) : Result E B :=
  match m with
  | Return a => f a
  | Raise e => Raise e
  end.

Notation "'try!' x ':=' m 'in' k" := (bind m (fun x => k))
  (at level 10, x name, m at level 100, k at level 200).

Definition is_Return {E A} (m : Result E A) : Prop := exists a, m = Return a.
Definition is_Raise {E A} (m : Result E A) : Prop := exists e, m = Raise e.

(* ================================================================== *)
(** ** The board module *)

(** [Board] is the [Enum] of [openoligo.hal.types]; that module is not
    among the sources, so the enumeration is a parameter: a finite type
    with decidable equality whose iteration order ([for pin in Board]) is
    [enum Board].  The eight members that [fixed] names are collected in
    the class below. *)
Class BoardNames (Board : Type) : Type := {
  P3 : Board; P5 : Board; P7 : Board; P8 : Board;
  P10 : Board; P11 : Board; P12 : Board; P13 : Board
}.

Section BoardModule.

Context {Board : Type} `{Finite Board} `{BoardNames Board}.

(** Modelled from the spec: the classes [Switch] and [Valve] of
    [openoligo.hal.devices], which is not among the sources.  The spec
    makes a Device a tagged union over Switch and Valve, each wrapping
    exactly one pin. *)
Inductive Switchable : Type :=
| Switch (pin : Board)
| Valve (pin : Board).

(** The attribute [gpio_pin] read by [list_configurable_pins]. *)
Definition gpio_pin (sw : Switchable) : Board :=
  match sw with
  | Switch p => p
  | Valve p => p
  end.

(** [isinstance(v, Valve)] *)
Definition isinstance_Valve (sw : Switchable) : bool :=
  match sw with
  | Valve _ => true
  | Switch _ => false
  end.

(** Modelled from the spec: [__eq__] of the devices, absent with
    [openoligo.hal.devices].  The spec defines equality of two Devices
    as equality of the wrapped pin, whatever the variant. *)
Definition Switchable_eq (a b : Switchable) : bool :=
  bool_decide (gpio_pin a = gpio_pin b).

(** [x in d.values()] *)
Definition in_values (x : Switchable) (d : dict Switchable) : bool :=
  existsb (fun y => Switchable_eq y x) (values d).

(** The module-level table [fixed]. *)
Definition fixed : dict Switchable :=
  [ ("waste", Valve P7);
    ("waste_rxn", Valve P5);
    ("prod", Valve P8);
    ("branch", Valve P12);
    ("rxn_out", Valve P13);
    ("sol", Valve P3);
    ("gas", Valve P10);
    ("pump", Switch P11) ].

(** [list_configurable_pins]; the global it reads is an argument. *)
Definition list_configurable_pins_of (fixed : dict Switchable) : list Board :=
  let fixed_pins := gpio_pin <$> values fixed in
  filter (fun pin => pin ∉ fixed_pins) (enum Board).

Definition list_configurable_pins : list Board :=
  list_configurable_pins_of fixed.

(** *** class Pinout *)

Inductive Exception : Type :=
| ValueError (pin : Switchable) (category sub_category : string)
    (* f"Pin {pin} is used twice in {category}.{sub_category}." *)
| NoSuchPinInPinout (name : string) (available : list string).
    (* f"Pin {name} not found in pinout. ... {list(self.__pinout)}" *)

Record Pinout : Type := MkPinout {
  self_fixed : dict Switchable;
  self_phosphoramidites : dict Switchable;
  self_reactants : dict Switchable;
  self_pinout : dict Switchable          (* self.__pinout *)
}.

(** A value found in [self.__dict__]. *)
Inductive Attr : Type :=
| AttrDict (d : dict Switchable)
| AttrSwitchable (sw : Switchable).

(** [self.__dict__.items()], in the order [__init__] assigns. *)
Definition self_dict (self : Pinout) : list (string * Attr) :=
  [ ("fixed", AttrDict (self_fixed self));
    ("phosphoramidites", AttrDict (self_phosphoramidites self));
    ("reactants", AttrDict (self_reactants self));
    ("_Pinout__pinout", AttrDict (self_pinout self)) ].

(** [Pinout.__add_pinout_safe], on the state [self.__pinout]. *)
Definition add_pinout_safe (pinout : dict Switchable)
    (pin : Switchable) (category sub_category : string)
  : Result Exception (dict Switchable) :=
  if in_values pin pinout
  then Raise (ValueError pin category sub_category)
  else Return (dict_setitem (lower sub_category) pin pinout).

(** The inner loop of [init_pinout]:
    [for category, pin in switchables.items()]. *)
Fixpoint init_pinout_items (key : string) (its : list (string * Switchable))
    (pinout : dict Switchable) : Result Exception (dict Switchable) :=
  match its with
  | [] => Return pinout
  | (category, pin) :: rest =>
      try! pinout' := add_pinout_safe pinout pin key category in
      init_pinout_items key rest pinout'
  end.

(** The outer loop of [init_pinout]:
    [for key, switchables in self.__dict__.items()]. *)
Fixpoint init_pinout_attrs (attrs : list (string * Attr))
    (pinout : dict Switchable) : Result Exception (dict Switchable) :=
  match attrs with
  | [] => Return pinout
  | (key, switchables) :: rest =>
      if startswith key "_" then init_pinout_attrs rest pinout
      else
        match switchables with
        | AttrDict d =>
            try! pinout' := init_pinout_items key (items d) pinout in
            init_pinout_attrs rest pinout'
        | AttrSwitchable sw =>
            try! pinout' := add_pinout_safe pinout sw "Pinout" key in
            init_pinout_attrs rest pinout'
        end
  end.

(** [Pinout.init_pinout] *)
Definition init_pinout (self : Pinout) : Result Exception Pinout :=
  try! pinout' := init_pinout_attrs (self_dict self) (self_pinout self) in
  Return (MkPinout (self_fixed self) (self_phosphoramidites self)
            (self_reactants self) pinout').

(** [Pinout.__init__], with the global [fixed] it reads as an argument. *)
Definition Pinout_init (fixed phosphoramidites reactants : dict Switchable)
  : Result Exception Pinout :=
  init_pinout (MkPinout fixed phosphoramidites reactants []).

(** The constructor call [Pinout(phosphoramidites, reactants)] that runs
    [__init__].  (The metaclass [Singleton] of [openoligo.utils.singleton]
    is not among the sources; it decides whether a later call constructs
    again, not what a construction does.) *)
Definition Pinout_new (phosphoramidites reactants : dict Switchable)
  : Result Exception Pinout :=
  Pinout_init fixed phosphoramidites reactants.

(** [Pinout.pins] *)
Definition pins (self : Pinout) : dict Switchable := self_pinout self.

(** [Pinout.valves] *)
Definition valves (self : Pinout) : dict Switchable :=
  filter (fun kv => isinstance_Valve (snd kv) = true) (items (self_pinout self)).

(** [Pinout.get] *)
Definition get (self : Pinout) (name : string) : Result Exception Switchable :=
  match dict_getitem (lower name) (self_pinout self) with
  | Some sw => Return sw
  | None => Raise (NoSuchPinInPinout name (keys (self_pinout self)))
  end.

(** *** The calls made by [init_pinout]

    [init_pinout] does nothing but call [__add_pinout_safe], once per
    (name, device) pair of the three public attributes, in the order of
    [self.__dict__] and of each dictionary.  The definitions below name
    that sequence of calls so that statements can speak about positions
    in the walk. *)

Record Call : Type := MkCall {
  call_pin : Switchable;
  call_category : string;
  call_sub_category : string
}.

(** The calls made for one attribute [key] holding the dictionary [d]. *)
Definition calls_of (key : string) (d : dict Switchable) : list Call :=
  (fun kv => MkCall (snd kv) key (fst kv)) <$> items d.

(** The whole walk of a construction. *)
Definition calls (fixed phosphoramidites reactants : dict Switchable) : list Call :=
  calls_of "fixed" fixed ++ calls_of "phosphoramidites" phosphoramidites
    ++ calls_of "reactants" reactants.

(** Running a sequence of calls, stopping at the first that raises. *)
Fixpoint run_calls (cs : list Call) (pinout : dict Switchable)
  : Result Exception (dict Switchable) :=
  match cs with
  | [] => Return pinout
  | c :: rest =>
      try! pinout' :=
        add_pinout_safe pinout (call_pin c) (call_category c) (call_sub_category c) in
      run_calls rest pinout'
  end.

(** The key a call writes. *)
Definition call_key (c : Call) : string := lower (call_sub_category c).

(** The binding of key [k] after the calls [cs], when it was [acc] before
    them: the last call that writes [k] wins. *)
Fixpoint last_binding (k : string) (cs : list Call) (acc : option Switchable)
  : option Switchable :=
  match cs with
  | [] => acc
  | c :: rest =>
      last_binding k rest (if decide (call_key c = k) then Some (call_pin c) else acc)
  end.

(** The pins wrapped by the devices of a dictionary. *)
Definition pins_of (d : dict Switchable) : list Board := gpio_pin <$> values d.

(** The pin a call tries to claim. *)
Definition call_gpio (c : Call) : Board := gpio_pin (call_pin c).

(** The bindings a run of calls appends when every key is new. *)
Definition bindings_of (cs : list Call) : dict Switchable :=
  (fun c => (call_key c, call_pin c)) <$> cs.

(** Two dictionaries wire the same names to the same pins, in the same
    order; the tags of the devices may differ. *)
Definition same_wiring (d d' : dict Switchable) : Prop :=
  Forall2 (fun kv kv' => fst kv = fst kv' ∧ gpio_pin (snd kv) = gpio_pin (snd kv')) d d'.

(** Two calls that differ at most in the tag of the device. *)
Definition same_call (c c' : Call) : Prop :=
  call_category c = call_category c' ∧ call_sub_category c = call_sub_category c'
  ∧ call_gpio c = call_gpio c'.

(** Two outcomes of a run that differ at most in the tags of the devices. *)
Definition same_outcome (r r' : Result Exception (dict Switchable)) : Prop :=
  match r, r' with
  | Return p, Return p' => same_wiring p p'
  | Raise (ValueError sw cat sub), Raise (ValueError sw' cat' sub') =>
      gpio_pin sw = gpio_pin sw' ∧ cat = cat' ∧ sub = sub'
  | _, _ => False
  end.

(** Two dictionaries hold the same devices, in the same order, under
    names that differ at most in the case of their letters. *)
Definition same_entries (d d' : dict Switchable) : Prop :=
  Forall2 (fun kv kv' => lower (fst kv) = lower (fst kv') ∧ snd kv = snd kv') d d'.

(** Two calls that write the same key with the same device. *)
Definition same_binding (c c' : Call) : Prop :=
  call_key c = call_key c' ∧ call_pin c = call_pin c'.

End BoardModule.

(* ================================================================== *)
(** ** A concrete board

    An instance of the parameters, used to run the model on concrete
    inputs: the GPIO positions of the first 26 pins of the Raspberry Pi
    header (the file's docstring: pins in the Raspberry Pi GPIO header). *)

Module RPi.

Inductive Board : Type :=
| P3 | P5 | P7 | P8 | P10 | P11 | P12 | P13 | P15 | P16 | P18 | P19
| P21 | P22 | P23 | P24 | P26.

#[global] Instance Board_eq_dec : EqDecision Board.
Proof. solve_decision. Defined.

Definition members : list Board :=
  [P3; P5; P7; P8; P10; P11; P12; P13; P15; P16; P18; P19;
   P21; P22; P23; P24; P26].

#[global, refine] Instance Board_finite : Finite Board := {| enum := members |}.
Proof.
  - apply (bool_decide_unpack _); by vm_compute.
  - intros []; apply (bool_decide_unpack _); by vm_compute.
Defined.

#[global] Instance Board_names : BoardNames Board :=
  Build_BoardNames Board P3 P5 P7 P8 P10 P11 P12 P13.

End RPi.

(* ================================================================== *)
(** ** The sequence validator of [openoligo/api/models.py] *)

Section Models.

(** [Seq] is the class of [openoligo.seq], which is not among the
    sources, so its constructor is a parameter: [Seq_raises value] is
    [None] when [Seq(value)] returns and [Some msg] when it raises a
    [ValueError] whose [str] is [msg]. *)
Variable Seq_raises : string → option string.

(** [tortoise.exceptions.ValidationError], with its message. *)
Inductive ValidationError : Type :=
| MkValidationError (msg : string).

(** [ValidSeq.__call__]: [Seq(value)] first, then the two assertions on
    [len(value)]; a [ValueError] or an [AssertionError] becomes a
    [ValidationError] with the same text. *)
Definition ValidSeq_call (value : string) : Result ValidationError unit :=
  match Seq_raises value with
  | Some msg => Raise (MkValidationError msg)
  | None =>
      if negb (3 <=? String.length value)%nat
      then Raise (MkValidationError "Sequence must be at least 3 bases long")
      else if negb (String.length value <=? 100)%nat
      then Raise (MkValidationError "Sequence must be at most 100 bases long")
      else Return tt
  end.

End Models.

(* ================================================================== *)
(** * Properties *)

(** ** Lower-casing *)

Lemma ascii_lower_idemp (c : ascii) : ascii_lower (ascii_lower c) = ascii_lower c.
Proof. destruct c as [[] [] [] [] [] [] [] []]; reflexivity. Qed.

Lemma lower_idemp (s : string) : lower (lower s) = lower s.
Proof.
  induction s as [|c s IH]; simpl; [reflexivity|].
  by rewrite ascii_lower_idemp, IH.
Qed.

(** ** Dictionaries *)

Section DictFacts.
Context {V : Type}.
Implicit Types (d : dict V) (k : string) (v : V).

Lemma dict_getitem_setitem_eq k v d :
  dict_getitem k (dict_setitem k v d) = Some v.
Proof.
  induction d as [|[k' v'] d IH]; simpl.
  - by rewrite decide_True.
  - destruct (decide (k' = k)) as [->|Hne]; simpl.
    + by rewrite decide_True.
    + by rewrite decide_False.
Qed.

Lemma dict_getitem_setitem_ne k k' v d :
  k ≠ k' → dict_getitem k' (dict_setitem k v d) = dict_getitem k' d.
Proof.
  intros Hne. induction d as [|[k0 v0] d IH]; simpl.
  - by rewrite decide_False.
  - destruct (decide (k0 = k)) as [->|Hk0]; simpl.
    + by rewrite !decide_False.
    + by rewrite IH.
Qed.

Lemma dict_getitem_setitem k k' v d :
  dict_getitem k' (dict_setitem k v d) =
    if decide (k = k') then Some v else dict_getitem k' d.
Proof.
  case_decide as Hk.
  - subst. apply dict_getitem_setitem_eq.
  - by apply dict_getitem_setitem_ne.
Qed.

Lemma dict_getitem_None k d : dict_getitem k d = None ↔ k ∉ keys d.
Proof.
  induction d as [|[k' v'] d IH]; simpl.
  - split; [intros _; apply not_elem_of_nil | done].
  - rewrite not_elem_of_cons.
    destruct (decide (k' = k)) as [->|Hne].
    + split; [done | intros [? _]; done].
    + rewrite IH. split; [by split; [congruence|] | tauto].
Qed.

Lemma dict_getitem_is_Some k d : is_Some (dict_getitem k d) ↔ k ∈ keys d.
Proof.
  rewrite <- not_eq_None_Some, dict_getitem_None.
  split; [apply dec_stable | tauto].
Qed.

Lemma dict_getitem_elem k v d : dict_getitem k d = Some v → (k, v) ∈ d.
Proof.
  induction d as [|[k' v'] d IH]; simpl; [done|].
  case_decide; intros ?; simplify_eq; [left | right; auto].
Qed.

Lemma elem_dict_getitem k v d :
  dict_wf d → (k, v) ∈ d → dict_getitem k d = Some v.
Proof.
  unfold dict_wf. induction d as [|[k' v'] d IH]; simpl.
  - intros _ Hin. by apply elem_of_nil in Hin.
  - rewrite NoDup_cons. intros [Hk' Hnd] Hin.
    apply elem_of_cons in Hin as [Heq|Hin].
    + simplify_eq. by rewrite decide_True.
    + destruct (decide (k' = k)) as [Hk|Hk]; [|by apply IH].
      subst k'. exfalso. apply Hk'.
      change k with (fst (k, v)). by apply list_elem_of_fmap_2.
Qed.

Lemma dict_setitem_fresh k v d :
  k ∉ keys d → dict_setitem k v d = d ++ [(k, v)].
Proof.
  induction d as [|[k' v'] d IH]; simpl; [done|].
  rewrite not_elem_of_cons. intros [Hne Hk].
  rewrite decide_False by done. by rewrite IH.
Qed.

Lemma elem_keys_setitem k k' v d :
  k' ∈ keys (dict_setitem k v d) ↔ k' = k ∨ k' ∈ keys d.
Proof.
  induction d as [|[k0 v0] d IH]; simpl.
  - rewrite list_elem_of_singleton. split; [by left|].
    intros [?|Hin]; [done | by apply elem_of_nil in Hin].
  - destruct (decide (k0 = k)) as [->|Hne]; simpl.
    + rewrite elem_of_cons. tauto.
    + rewrite !elem_of_cons, IH. tauto.
Qed.

Lemma dict_wf_setitem k v d : dict_wf d → dict_wf (dict_setitem k v d).
Proof.
  unfold dict_wf. induction d as [|[k0 v0] d IH]; simpl.
  - intros _. apply NoDup_singleton.
  - rewrite NoDup_cons. intros [Hk0 Hnd].
    destruct (decide (k0 = k)) as [->|Hne]; simpl; rewrite NoDup_cons.
    + done.
    + split; [|by apply IH].
      rewrite elem_keys_setitem. intros [?|?]; by simplify_eq.
Qed.

Lemma elem_values_setitem x k v d :
  x ∈ values (dict_setitem k v d) → x = v ∨ x ∈ values d.
Proof.
  induction d as [|[k' v'] d IH]; simpl.
  - rewrite list_elem_of_singleton. by left.
  - case_decide; simpl; rewrite !elem_of_cons; intros [?|?]; auto.
    destruct IH; auto.
Qed.

Lemma NoDup_values_setitem {B} (f : V → B) k v d :
  NoDup (f <$> values d) → f v ∉ f <$> values d →
  NoDup (f <$> values (dict_setitem k v d)).
Proof.
  induction d as [|[k' v'] d IH]; simpl.
  - intros _ _. apply NoDup_singleton.
  - rewrite NoDup_cons, not_elem_of_cons. intros [Hv' Hnd] [Hne Hv].
    case_decide; simpl; rewrite NoDup_cons.
    + done.
    + split; [|by apply IH].
      intros Hin. apply list_elem_of_fmap in Hin as (x & Hfx & Hx).
      apply elem_values_setitem in Hx as [->|Hx]; [done|].
      apply Hv'. rewrite Hfx. by apply list_elem_of_fmap_2.
Qed.
End DictFacts.

(** ** The registry *)

Section RegistryFacts.
Context {Board : Type} `{Finite Board} `{BoardNames Board}.
Implicit Types (pinout : dict (@Switchable Board)) (sw : @Switchable Board).
Implicit Types (c : @Call Board) (cs : list (@Call Board)).
Implicit Types (fx ph re : dict (@Switchable Board)) (self : @Pinout Board).
Implicit Types (e : @Exception Board) (d : dict (@Switchable Board)).

Lemma in_values_spec sw pinout :
  in_values sw pinout = true ↔ gpio_pin sw ∈ pins_of pinout.
Proof.
  unfold in_values, pins_of.
  induction pinout as [|[k v] d IH]; simpl.
  - split; [done | intros Hin; by apply elem_of_nil in Hin].
  - rewrite orb_true_iff, IH, elem_of_cons. unfold Switchable_eq.
    rewrite bool_decide_eq_true. split; intros [?|?]; auto.
Qed.

Lemma in_values_false sw pinout :
  in_values sw pinout = false ↔ gpio_pin sw ∉ pins_of pinout.
Proof. rewrite <- in_values_spec. by destruct (in_values sw pinout). Qed.

Lemma add_pinout_safe_Return pinout sw cat sub pinout' :
  add_pinout_safe pinout sw cat sub = Return pinout' ↔
  (gpio_pin sw ∉ pins_of pinout) ∧ pinout' = dict_setitem (lower sub) sw pinout.
Proof.
  unfold add_pinout_safe. rewrite <- in_values_false.
  destruct (in_values sw pinout); split.
  - done.
  - by intros [? _].
  - intros [= <-]. done.
  - by intros [_ ->].
Qed.

Lemma add_pinout_safe_Raise pinout sw cat sub e :
  add_pinout_safe pinout sw cat sub = Raise e ↔
  gpio_pin sw ∈ pins_of pinout ∧ e = ValueError sw cat sub.
Proof.
  unfold add_pinout_safe. rewrite <- in_values_spec.
  destruct (in_values sw pinout); split.
  - intros [= <-]. done.
  - by intros [_ ->].
  - done.
  - by intros [? _].
Qed.

(** *** [init_pinout] is the run of its calls *)

Lemma run_calls_app cs1 cs2 pinout :
  run_calls (cs1 ++ cs2) pinout =
  (try! pinout' := run_calls cs1 pinout in run_calls cs2 pinout').
Proof.
  revert pinout. induction cs1 as [|c cs1 IH]; intros pinout; simpl; [done|].
  destruct (add_pinout_safe _ _ _ _); simpl; [apply IH | done].
Qed.

Lemma init_pinout_items_calls key (its : list (string * Switchable)) pinout :
  init_pinout_items key its pinout = run_calls (calls_of key its) pinout.
Proof.
  revert pinout. induction its as [|[n sw] its IH]; intros pinout; simpl; [done|].
  destruct (add_pinout_safe _ _ _ _); simpl; [apply IH | done].
Qed.

Lemma Pinout_init_calls fx ph re :
  Pinout_init fx ph re =
  (try! pinout := run_calls (calls fx ph re) [] in
   Return (MkPinout fx ph re pinout)).
Proof.
  unfold Pinout_init, init_pinout, calls. simpl. unfold items.
  rewrite run_calls_app, init_pinout_items_calls.
  destruct (run_calls (calls_of "fixed" fx) []) as [p1|]; simpl; [|done].
  rewrite run_calls_app, init_pinout_items_calls.
  destruct (run_calls (calls_of "phosphoramidites" ph) p1) as [p2|]; simpl; [|done].
  rewrite init_pinout_items_calls.
  by destruct (run_calls (calls_of "reactants" re) p2).
Qed.

Lemma Pinout_init_Return fx ph re self :
  Pinout_init fx ph re = Return self ↔
  ∃ pinout, run_calls (calls fx ph re) [] = Return pinout
            ∧ self = MkPinout fx ph re pinout.
Proof.
  rewrite Pinout_init_calls.
  destruct (run_calls (calls fx ph re) []) as [p|e]; simpl; split.
  - intros [= <-]. by exists p.
  - intros (p' & [= <-] & ->). done.
  - done.
  - by intros (? & ? & _).
Qed.

Lemma Pinout_init_Raise fx ph re e :
  Pinout_init fx ph re = Raise e ↔ run_calls (calls fx ph re) [] = Raise e.
Proof.
  rewrite Pinout_init_calls.
  destruct (run_calls (calls fx ph re) []) as [p|e']; simpl;
    split; intros [=]; by subst.
Qed.

Lemma run_calls_raise_prefix cs1 cs2 pinout e :
  run_calls cs1 pinout = Raise e → run_calls (cs1 ++ cs2) pinout = Raise e.
Proof. intros Hr. by rewrite run_calls_app, Hr. Qed.

(** *** What a successful run preserves

    A run that returns is a chain of accepted calls; the facts about it
    are proved by induction along that chain. *)

Lemma run_calls_Return_ind
    (P : list (@Call Board) → dict (@Switchable Board) → dict (@Switchable Board) → Prop) :
  (∀ pinout, P [] pinout pinout) →
  (∀ c cs pinout pinout',
     call_gpio c ∉ pins_of pinout →
     run_calls cs (dict_setitem (call_key c) (call_pin c) pinout) = Return pinout' →
     P cs (dict_setitem (call_key c) (call_pin c) pinout) pinout' →
     P (c :: cs) pinout pinout') →
  ∀ cs pinout pinout', run_calls cs pinout = Return pinout' → P cs pinout pinout'.
Proof.
  intros Hnil Hcons cs. induction cs as [|c cs IH]; intros pinout pinout'; simpl.
  - intros [= <-]. apply Hnil.
  - destruct (add_pinout_safe _ _ _ _) as [p1|] eqn:Hadd; simpl; [|done].
    apply add_pinout_safe_Return in Hadd as [Hfresh ->].
    intros Hrun. apply Hcons; [done | done | by apply IH].
Qed.

Lemma run_calls_wf cs pinout pinout' :
  run_calls cs pinout = Return pinout' → dict_wf pinout → dict_wf pinout'.
Proof.
  revert cs pinout pinout'.
  apply (run_calls_Return_ind (λ _ p p', dict_wf p → dict_wf p')); [done|].
  intros c cs pinout pinout' _ _ IH Hwf. by apply IH, dict_wf_setitem.
Qed.

Lemma run_calls_pins_NoDup cs pinout pinout' :
  run_calls cs pinout = Return pinout' →
  NoDup (pins_of pinout) → NoDup (pins_of pinout').
Proof.
  revert cs pinout pinout'.
  apply (run_calls_Return_ind
           (λ _ p p', NoDup (pins_of p) → NoDup (pins_of p'))); [done|].
  intros c cs pinout pinout' Hfresh _ IH Hnd.
  by apply IH, NoDup_values_setitem.
Qed.

Lemma run_calls_keys_lower cs pinout pinout' :
  run_calls cs pinout = Return pinout' →
  (∀ k, k ∈ keys pinout → lower k = k) → ∀ k, k ∈ keys pinout' → lower k = k.
Proof.
  revert cs pinout pinout'.
  apply (run_calls_Return_ind
           (λ _ p p', (∀ k, k ∈ keys p → lower k = k) →
                      ∀ k, k ∈ keys p' → lower k = k)); [done|].
  intros c cs pinout pinout' _ _ IH Hlow. apply IH.
  intros k [->|Hk]%elem_keys_setitem; [apply lower_idemp | by apply Hlow].
Qed.

Lemma run_calls_getitem cs pinout pinout' k :
  run_calls cs pinout = Return pinout' →
  dict_getitem k pinout' = last_binding k cs (dict_getitem k pinout).
Proof.
  revert cs pinout pinout'.
  apply (run_calls_Return_ind
           (λ cs p p', dict_getitem k p' = last_binding k cs (dict_getitem k p)));
    [done|].
  intros c cs pinout pinout' _ _ IH. simpl.
  by rewrite IH, dict_getitem_setitem.
Qed.

Lemma run_calls_keys cs pinout pinout' k :
  run_calls cs pinout = Return pinout' →
  k ∈ keys pinout' ↔ k ∈ keys pinout ∨ k ∈ call_key <$> cs.
Proof.
  revert cs pinout pinout'.
  apply (run_calls_Return_ind
           (λ cs p p', k ∈ keys p' ↔ k ∈ keys p ∨ k ∈ call_key <$> cs)).
  - intros pinout. split; [by left | intros [?|Hin]; [done|]].
    by apply elem_of_nil in Hin.
  - intros c cs pinout pinout' _ _ IH.
    rewrite IH, elem_keys_setitem, fmap_cons, elem_of_cons. tauto.
Qed.

Lemma last_binding_app k cs1 cs2 acc :
  last_binding k (cs1 ++ cs2) acc = last_binding k cs2 (last_binding k cs1 acc).
Proof. revert acc. induction cs1 as [|c cs1 IH]; intros acc; simpl; [done | apply IH]. Qed.

Lemma last_binding_fresh k cs acc :
  (∀ c, c ∈ cs → call_key c ≠ k) → last_binding k cs acc = acc.
Proof.
  revert acc. induction cs as [|c cs IH]; intros acc Hfresh; simpl; [done|].
  rewrite decide_False by (apply Hfresh; left).
  apply IH. intros c' Hc'. apply Hfresh. by right.
Qed.

Lemma last_binding_split k pre c post acc :
  call_key c = k → (∀ c', c' ∈ post → call_key c' ≠ k) →
  last_binding k (pre ++ c :: post) acc = Some (call_pin c).
Proof.
  intros Hk Hpost. rewrite last_binding_app. simpl.
  rewrite decide_True by done. by apply last_binding_fresh.
Qed.

(** *** Runs over pairwise distinct keys *)

Lemma pins_of_app pinout1 pinout2 :
  pins_of (pinout1 ++ pinout2) = pins_of pinout1 ++ pins_of pinout2.
Proof. unfold pins_of, values. by rewrite !fmap_app. Qed.

Lemma keys_app {V} (d1 d2 : dict V) : keys (d1 ++ d2) = keys d1 ++ keys d2.
Proof. unfold keys. by rewrite fmap_app. Qed.

Lemma run_calls_fresh cs pinout pinout' :
  NoDup (keys pinout ++ (call_key <$> cs)) →
  run_calls cs pinout = Return pinout' →
  pinout' = pinout ++ bindings_of cs.
Proof.
  revert pinout. induction cs as [|c cs IH]; intros pinout Hnd; simpl.
  - intros [= <-]. by rewrite app_nil_r.
  - destruct (add_pinout_safe _ _ _ _) as [p1|] eqn:Hadd; simpl; [|done].
    apply add_pinout_safe_Return in Hadd as [_ ->].
    assert (call_key c ∉ keys pinout) as Hfresh.
    { apply NoDup_app in Hnd as (_ & Hdisj & _).
      intros Hin. apply (Hdisj _ Hin). left. }
    fold (call_key c). rewrite (dict_setitem_fresh _ _ _ Hfresh).
    intros Hrun. apply IH in Hrun.
    + rewrite Hrun. unfold bindings_of at 2. simpl.
      by rewrite <- app_assoc.
    + rewrite keys_app. simpl. by rewrite <- app_assoc.
Qed.

Lemma run_calls_Return_iff cs pinout :
  NoDup (keys pinout ++ (call_key <$> cs)) →
  is_Return (run_calls cs pinout) ↔
  NoDup (call_gpio <$> cs) ∧ ∀ c, c ∈ cs → call_gpio c ∉ pins_of pinout.
Proof.
  revert pinout. induction cs as [|c cs IH]; intros pinout Hnd; simpl.
  - split; [intros _ | intros _; by eexists].
    split; [apply NoDup_nil_2 | intros c Hin; by apply elem_of_nil in Hin].
  - assert (call_key c ∉ keys pinout) as Hfresh.
    { apply NoDup_app in Hnd as (_ & Hdisj & _).
      intros Hin. apply (Hdisj _ Hin). left. }
    destruct (add_pinout_safe _ _ _ _) as [p1|e] eqn:Hadd; simpl.
    + apply add_pinout_safe_Return in Hadd as [Hc ->].
      fold (call_key c). rewrite (dict_setitem_fresh _ _ _ Hfresh).
      rewrite IH by (rewrite keys_app; simpl; by rewrite <- app_assoc).
      rewrite NoDup_cons, pins_of_app. split.
      * intros [Hcs Hall]. split_and!; [|done|].
        -- intros (c' & Heq & Hc')%list_elem_of_fmap.
           apply (Hall _ Hc'). rewrite elem_of_app. right.
           rewrite <- Heq. left.
        -- intros c' [->|Hc']%elem_of_cons; [done|].
           intros Hin. apply (Hall _ Hc'). rewrite elem_of_app. by left.
      * intros [[Hc' Hcs] Hall]. split; [done|].
        intros c' Hin. rewrite elem_of_app. intros [Hp|Hp].
        -- apply (Hall c'); [by right | done].
        -- apply list_elem_of_singleton in Hp. apply Hc'.
           replace (call_gpio c) with (call_gpio c') by (by rewrite Hp).
           by apply list_elem_of_fmap_2.
    + apply add_pinout_safe_Raise in Hadd as [Hc _]. split.
      * by intros [? [=]].
      * intros [_ Hall]. exfalso. apply (Hall c); [left | done].
Qed.

(** *** A pin that is still bound makes the walk fail *)

Lemma run_calls_duplicate pre c1 mid c2 pinout pinout' :
  call_gpio c1 = call_gpio c2 →
  (∀ c, c ∈ mid → call_key c ≠ call_key c1) →
  run_calls (pre ++ c1 :: mid) pinout = Return pinout' →
  add_pinout_safe pinout' (call_pin c2) (call_category c2) (call_sub_category c2)
  = Raise (ValueError (call_pin c2) (call_category c2) (call_sub_category c2)).
Proof.
  intros Hpin Hmid Hrun. apply add_pinout_safe_Raise. split; [|done].
  apply (run_calls_getitem _ _ _ (call_key c1)) in Hrun.
  rewrite last_binding_split in Hrun by done.
  apply dict_getitem_elem in Hrun.
  change (gpio_pin (call_pin c2)) with (call_gpio c2). rewrite <- Hpin.
  unfold pins_of, values, call_gpio.
  apply list_elem_of_fmap_2.
  change (call_pin c1) with (snd (call_key c1, call_pin c1)).
  by apply list_elem_of_fmap_2.
Qed.

Lemma run_calls_duplicate_Raise pre c1 mid c2 post pinout :
  call_gpio c1 = call_gpio c2 →
  (∀ c, c ∈ mid → call_key c ≠ call_key c1) →
  is_Raise (run_calls (pre ++ c1 :: mid ++ c2 :: post) pinout).
Proof.
  intros Hpin Hmid.
  replace (pre ++ c1 :: mid ++ c2 :: post)
    with ((pre ++ c1 :: mid) ++ c2 :: post) by (by rewrite <- app_assoc).
  rewrite run_calls_app.
  destruct (run_calls (pre ++ c1 :: mid) pinout) as [p1|e] eqn:Hrun; simpl.
  - rewrite (run_calls_duplicate _ _ _ _ _ _ Hpin Hmid Hrun). by eexists.
  - by eexists.
Qed.

Lemma run_calls_only_ValueError cs pinout e :
  run_calls cs pinout = Raise e →
  ∃ c, c ∈ cs ∧ e = ValueError (call_pin c) (call_category c) (call_sub_category c).
Proof.
  revert pinout. induction cs as [|c cs IH]; intros pinout; simpl; [done|].
  destruct (add_pinout_safe _ _ _ _) as [p1|e'] eqn:Hadd; simpl.
  - intros (c' & Hc' & ->)%IH. exists c'. split; [by right | done].
  - intros [= ->]. apply add_pinout_safe_Raise in Hadd as [_ ->].
    exists c. split; [left | done].
Qed.

Lemma run_calls_distinct_pins cs pinout :
  NoDup (call_gpio <$> cs) →
  (∀ c, c ∈ cs → call_gpio c ∉ pins_of pinout) →
  is_Return (run_calls cs pinout).
Proof.
  revert pinout. induction cs as [|c cs IH]; intros pinout; simpl.
  - intros _ _. by eexists.
  - rewrite NoDup_cons. intros [Hc Hnd] Hall.
    destruct (add_pinout_safe _ _ _ _) as [p1|e] eqn:Hadd; simpl.
    + apply add_pinout_safe_Return in Hadd as [_ ->].
      apply IH; [done|]. intros c' Hc' Hin.
      apply list_elem_of_fmap in Hin as (sw & Hsw & Hin).
      apply elem_values_setitem in Hin as [->|Hin].
      * apply Hc. change (gpio_pin (call_pin c)) with (call_gpio c) in Hsw.
        rewrite <- Hsw. by apply list_elem_of_fmap_2.
      * apply (Hall c'); [by right|]. rewrite Hsw.
        by apply list_elem_of_fmap_2.
    + apply add_pinout_safe_Raise in Hadd as [Hin _].
      exfalso. apply (Hall c); [left | done].
Qed.

(** *** Where a binding of the final table comes from *)

Lemma last_binding_Some k cs acc sw :
  last_binding k cs acc = Some sw →
  (acc = Some sw ∧ ∀ c, c ∈ cs → call_key c ≠ k) ∨
  (∃ pre c post, cs = pre ++ c :: post ∧ call_key c = k ∧ call_pin c = sw
                 ∧ ∀ c', c' ∈ post → call_key c' ≠ k).
Proof.
  revert acc. induction cs as [|c cs IH]; intros acc; simpl.
  - intros ->. left. split; [done|]. intros c Hc. by apply elem_of_nil in Hc.
  - intros [[Hacc Hfresh]|(pre & c' & post & -> & Hk & Hsw & Hpost)]%IH.
    + destruct (decide (call_key c = k)) as [Hk|Hk].
      * right. exists [], c, cs. by simplify_eq.
      * left. split; [done|].
        intros c' [->|Hc']%elem_of_cons; [done | by apply Hfresh].
    + right. by exists (c :: pre), c', post.
Qed.

Lemma NoDup_fmap_split {A B} (f : A → B) (l1 l2 l1' l2' : list A) x x' :
  NoDup (f <$> (l1 ++ x :: l2)) →
  l1 ++ x :: l2 = l1' ++ x' :: l2' → f x = f x' →
  l1 = l1' ∧ x = x' ∧ l2 = l2'.
Proof.
  revert l1'. induction l1 as [|y l1 IH]; intros l1' Hnd Heq Hf.
  - destruct l1' as [|y' l1']; simpl in *.
    + by simplify_eq.
    + simplify_eq. exfalso. apply NoDup_cons in Hnd as [Hnd _].
      apply Hnd. rewrite Hf, fmap_app, elem_of_app. right. left.
  - destruct l1' as [|y' l1']; simpl in *.
    + simplify_eq. exfalso. apply NoDup_cons in Hnd as [Hnd _].
      apply Hnd. rewrite <- Hf, fmap_app, elem_of_app. right. left.
    + simplify_eq. apply NoDup_cons in Hnd as [_ Hnd].
      destruct (IH l1' Hnd) as (-> & -> & ->); done.
Qed.

Lemma app_cons_two_splits {A} (l1 : list A) x l2 l1' x' l2' :
  l1 ++ x :: l2 = l1' ++ x' :: l2' →
  (l1 = l1' ∧ x = x' ∧ l2 = l2') ∨ x' ∈ l1 ∨ x' ∈ l2.
Proof.
  revert l1'. induction l1 as [|y l1 IH]; intros l1' Heq.
  - destruct l1' as [|y' l1']; simpl in *; simplify_eq.
    + by left.
    + right. right. rewrite elem_of_app. right. left.
  - destruct l1' as [|y' l1']; simpl in *; simplify_eq.
    + right. left. left.
    + destruct (IH l1') as [(-> & -> & ->)|[Hin|Hin]]; [done|by left|..].
      * right. left. by right.
      * by right; right.
Qed.

Lemma filter_none {A} (P : A → Prop) `{∀ x, Decision (P x)} (l : list A) :
  (∀ x, x ∈ l → ¬ P x) → filter P l = [].
Proof.
  induction l as [|y l IH]; intros Hall; [done|].
  rewrite filter_cons_False by (apply Hall; left).
  apply IH. intros x Hx. apply Hall. by right.
Qed.

Lemma NoDup_fmap_count {A B} `{EqDecision B} (f : A → B) (l : list A) x :
  NoDup (f <$> l) → x ∈ l → length (filter (λ y, f y = f x) l) = 1.
Proof.
  induction l as [|y l IH]; simpl.
  - intros _ Hin. by apply elem_of_nil in Hin.
  - rewrite NoDup_cons, elem_of_cons. intros [Hy Hnd] Hin.
    destruct (decide (f y = f x)) as [Hf|Hf].
    + rewrite filter_cons_True by done.
      rewrite filter_none; [done|].
      intros z Hz Hfz. apply Hy.
      rewrite Hf, <- Hfz. by apply list_elem_of_fmap_2.
    + rewrite filter_cons_False by done.
      destruct Hin as [->|Hin]; [done | by apply IH].
Qed.

(** *** The walk of a construction, projected *)

Lemma call_key_calls_of key d :
  call_key <$> calls_of key d = lower <$> keys d.
Proof.
  unfold calls_of, keys, items. rewrite <- !list_fmap_compose.
  by apply list_fmap_ext.
Qed.

Lemma call_key_calls fx ph re :
  call_key <$> calls fx ph re = lower <$> (keys fx ++ keys ph ++ keys re).
Proof. unfold calls. by rewrite !fmap_app, !call_key_calls_of. Qed.

Lemma call_gpio_calls_of key d :
  call_gpio <$> calls_of key d = pins_of d.
Proof.
  unfold calls_of, pins_of, values, items. rewrite <- !list_fmap_compose.
  by apply list_fmap_ext.
Qed.

Lemma call_gpio_calls fx ph re :
  call_gpio <$> calls fx ph re = pins_of (fx ++ ph ++ re).
Proof. unfold calls. by rewrite !fmap_app, !call_gpio_calls_of, !pins_of_app. Qed.

(** *** Tags play no part in a run *)

Lemma same_wiring_pins pinout pinout' :
  same_wiring pinout pinout' → pins_of pinout = pins_of pinout'.
Proof.
  unfold same_wiring, pins_of, values.
  induction 1 as [|[k v] [k' v'] p p' [_ Hpin] _ IH]; simpl in *; [done|].
  f_equal; [exact Hpin | exact IH].
Qed.

Lemma same_wiring_setitem pinout pinout' k sw sw' :
  same_wiring pinout pinout' → gpio_pin sw = gpio_pin sw' →
  same_wiring (dict_setitem k sw pinout) (dict_setitem k sw' pinout').
Proof.
  unfold same_wiring. intros Hsame Hpin.
  induction Hsame as [|[k1 v1] [k1' v1'] p p' [Hk Hv] Hsame IH]; simpl in *.
  - by repeat constructor.
  - subst k1'. destruct (decide (k1 = k)); by constructor.
Qed.

Lemma calls_of_same_wiring key d d' :
  same_wiring d d' → Forall2 same_call (calls_of key d) (calls_of key d').
Proof.
  unfold same_wiring, calls_of, items.
  induction 1 as [|[k v] [k' v'] p p' [Hk Hv] _ IH]; simpl in *;
    constructor; [by repeat split | done].
Qed.

Lemma run_calls_same_wiring cs cs' pinout pinout' :
  Forall2 same_call cs cs' → same_wiring pinout pinout' →
  same_outcome (run_calls cs pinout) (run_calls cs' pinout').
Proof.
  intros Hcs. revert pinout pinout'.
  induction Hcs as [|c c' cs cs' (Hcat & Hsub & Hpin) _ IH];
    intros pinout pinout' Hsame; simpl; [done|].
  unfold add_pinout_safe.
  destruct (in_values (call_pin c) pinout) eqn:Hin.
  - apply in_values_spec in Hin.
    rewrite (same_wiring_pins _ _ Hsame) in Hin.
    change (gpio_pin (call_pin c)) with (call_gpio c) in Hin.
    rewrite Hpin in Hin. apply in_values_spec in Hin. rewrite Hin. simpl.
    by rewrite Hcat, Hsub.
  - apply in_values_false in Hin.
    rewrite (same_wiring_pins _ _ Hsame) in Hin.
    change (gpio_pin (call_pin c)) with (call_gpio c) in Hin.
    rewrite Hpin in Hin. apply in_values_false in Hin. rewrite Hin. simpl.
    apply IH. rewrite Hsub. by apply same_wiring_setitem.
Qed.

(** *** When a construction succeeds *)

Lemma Pinout_init_is_Return fx ph re :
  is_Return (Pinout_init fx ph re) ↔ is_Return (run_calls (calls fx ph re) []).
Proof.
  split.
  - intros [self (pinout & Hrun & _)%Pinout_init_Return]. by exists pinout.
  - intros [pinout Hrun]. exists (MkPinout fx ph re pinout).
    apply Pinout_init_Return. by exists pinout.
Qed.

Lemma Pinout_init_succeeds_iff fx ph re :
  NoDup (lower <$> keys (fx ++ ph ++ re)) →
  is_Return (Pinout_init fx ph re) ↔ NoDup (pins_of (fx ++ ph ++ re)).
Proof.
  intros Hnd. rewrite Pinout_init_is_Return, run_calls_Return_iff.
  - rewrite call_gpio_calls. split; [by intros [? _] | intros ?; split; [done|]].
    intros c _ Hin. by apply elem_of_nil in Hin.
  - simpl. by rewrite call_key_calls, <- !keys_app.
Qed.

Lemma filter_all {A} (P : A → Prop) `{∀ x, Decision (P x)} (l : list A) :
  (∀ x, x ∈ l → P x) → filter P l = l.
Proof.
  induction l as [|y l IH]; intros Hall; [done|].
  rewrite filter_cons_True by (apply Hall; left).
  f_equal. apply IH. intros x Hx. apply Hall. by right.
Qed.

Lemma bindings_of_app cs1 cs2 :
  bindings_of (cs1 ++ cs2) = bindings_of cs1 ++ bindings_of cs2.
Proof. unfold bindings_of. by rewrite fmap_app. Qed.

Lemma valves_of_bindings key d :
  (∀ name sw, (name, sw) ∈ d → isinstance_Valve sw = true) →
  length (filter (λ kv, isinstance_Valve (snd kv) = true)
            (bindings_of (calls_of key d))) = length d.
Proof.
  intros Hall. rewrite filter_all.
  - unfold bindings_of, calls_of, items. by rewrite !length_fmap.
  - intros [k sw] (c & [= -> ->] & (kv & -> & Hkv)%list_elem_of_fmap)%list_elem_of_fmap.
    simpl. destruct kv as [name sw]. by apply (Hall name).
Qed.

End RegistryFacts.

(* ================================================================== *)
(** * The claims of the specification *)

Section Claims.
Context {Board : Type} `{Finite Board} `{BoardNames Board}.
Implicit Types (pinout : dict (@Switchable Board)) (sw : @Switchable Board).
Implicit Types (c : @Call Board) (cs : list (@Call Board)).
Implicit Types (fx ph re : dict (@Switchable Board)) (self : @Pinout Board).
Implicit Types (e : @Exception Board) (pin : Board).

(** C7.  [list_configurable_pins()] is the complement of the fixed pins
    within the [Board] enumeration: a pin is listed exactly when no
    device of [fixed] claims it, so no fixed pin is ever listed; each
    pin is listed once; and the result depends on the fixed table only
    through its set of pins, so that calls on the same fixed set return
    the same list. *)
Theorem list_configurable_pins_complement :
  (∀ pin, pin ∈ list_configurable_pins ↔
          ¬ ∃ name sw, (name, sw) ∈ items fixed ∧ gpio_pin sw = pin)
  ∧ (∀ pin, pin ∈ pins_of fixed → pin ∉ list_configurable_pins)
  ∧ NoDup list_configurable_pins
  ∧ (∀ fx fx', (∀ pin, pin ∈ pins_of fx ↔ pin ∈ pins_of fx') →
               list_configurable_pins_of fx = list_configurable_pins_of fx').
Proof.
  assert (∀ fx pin, pin ∈ list_configurable_pins_of fx ↔ pin ∉ pins_of fx) as Hmem.
  { intros fx pin. unfold list_configurable_pins_of. cbv zeta.
    rewrite list_elem_of_filter. fold (pins_of fx).
    split; [by intros [? _] | intros ?; split; [done | apply elem_of_enum]]. }
  split_and!.
  - intros pin. unfold list_configurable_pins. rewrite Hmem. split.
    + intros Hnot (name & sw & Hin & <-). apply Hnot.
      unfold pins_of, values. apply list_elem_of_fmap_2.
      change sw with (snd (name, sw)). by apply list_elem_of_fmap_2.
    + intros Hnot Hin. apply Hnot.
      apply list_elem_of_fmap in Hin as (sw & -> & Hin).
      apply list_elem_of_fmap in Hin as ([name sw'] & -> & Hin).
      by exists name, sw'.
  - intros pin Hin Hlist. by apply Hmem in Hlist.
  - apply NoDup_filter, NoDup_enum.
  - intros fx fx' Hsame. unfold list_configurable_pins_of. cbv zeta.
    apply list_filter_iff. intros pin. fold (pins_of fx) (pins_of fx').
    by rewrite Hsame.
Qed.


(** C4.  [get] is case-insensitive.  On a constructed registry every
    key is in lower case, and a query is lower-cased before the lookup:
    for every name of the input maps the table binds its lower-cased
    form to a device, and every query with that lower-cased form returns
    that very binding; the binding is the device of the last input entry
    with that lower-cased name; in particular "Waste", "waste" and
    "WASTE" all return the device bound to the key "waste". *)
Theorem get_case_insensitive ph re self :
  Pinout_new ph re = Return self →
  (∀ k, k ∈ keys (pins self) → lower k = k)
  ∧ (∀ name, name ∈ keys fixed ++ keys ph ++ keys re →
       ∃ sw, dict_getitem (lower name) (pins self) = Some sw
             ∧ ∀ query, lower query = lower name → get self query = Return sw)
  ∧ (∀ pre c post, calls fixed ph re = pre ++ c :: post →
       (∀ c', c' ∈ post → call_key c' ≠ call_key c) →
       ∀ query, lower query = call_key c → get self query = Return (call_pin c))
  ∧ (∃ sw, dict_getitem "waste" (pins self) = Some sw
           ∧ get self "Waste" = Return sw ∧ get self "waste" = Return sw
           ∧ get self "WASTE" = Return sw).
Proof.
  intros (pinout & Hrun & ->)%Pinout_init_Return. unfold pins. simpl.
  assert (∀ name, name ∈ keys fixed ++ keys ph ++ keys re →
    ∃ sw, dict_getitem (lower name) pinout = Some sw
          ∧ ∀ query, lower query = lower name →
              get (MkPinout fixed ph re pinout) query = Return sw) as Hany.
  { intros name Hname.
    assert (lower name ∈ keys pinout) as [sw Hsw]%dict_getitem_is_Some.
    { rewrite (run_calls_keys _ _ _ _ Hrun). right.
      rewrite call_key_calls. by apply list_elem_of_fmap_2. }
    exists sw. split; [done|].
    intros query Hq. unfold get. simpl. by rewrite Hq, Hsw. }
  split_and!.
  - eapply run_calls_keys_lower; [exact Hrun|].
    intros k Hk. by apply elem_of_nil in Hk.
  - exact Hany.
  - intros pre c post Hcs Hpost query Hq. unfold get. simpl.
    rewrite Hq, (run_calls_getitem _ _ _ _ Hrun), Hcs.
    by rewrite (last_binding_split (call_key c) pre c post _ eq_refl Hpost).
  - destruct (Hany "waste") as (sw & Hsw & Hget); [left|].
    exists sw. split_and!; [exact Hsw | by apply Hget..].
Qed.

(** C9.  A failed construction yields no registry.  When the duplicate
    check fails at some call of the walk, after the calls before it have
    built a partial table, the constructor raises: it returns neither
    the partial table nor any other registry.  Conversely a registry
    that the constructor returns has been through the whole walk: at
    every call the check passed, and the name of every input entry is
    one of its keys. *)
Theorem failed_construction_yields_no_registry fx ph re :
  (∀ pre c post partial,
     calls fx ph re = pre ++ c :: post →
     run_calls pre [] = Return partial →
     in_values (call_pin c) partial = true →
     Pinout_init fx ph re
     = Raise (ValueError (call_pin c) (call_category c) (call_sub_category c))
     ∧ ∀ self, Pinout_init fx ph re ≠ Return self)
  ∧ (∀ self, Pinout_init fx ph re = Return self →
     ∀ pre c post, calls fx ph re = pre ++ c :: post →
       (∃ partial, run_calls pre [] = Return partial
                   ∧ in_values (call_pin c) partial = false)
       ∧ call_key c ∈ keys (pins self)).
Proof.
  split.
  - intros pre c post partial Hcalls Hpre Hdup.
    assert (Pinout_init fx ph re
      = Raise (ValueError (call_pin c) (call_category c) (call_sub_category c)))
      as Hraise.
    { apply Pinout_init_Raise. rewrite Hcalls, run_calls_app, Hpre. simpl.
      unfold add_pinout_safe. by rewrite Hdup. }
    split; [done|]. intros self Hself. by rewrite Hraise in Hself.
  - intros self (pinout & Hrun & ->)%Pinout_init_Return pre c post Hcalls.
    unfold pins. simpl. split.
    + rewrite Hcalls, run_calls_app in Hrun.
      destruct (run_calls pre []) as [partial|] eqn:Hpre; simpl in Hrun; [|done].
      exists partial. split; [done|].
      unfold add_pinout_safe in Hrun.
      by destruct (in_values (call_pin c) partial).
    + rewrite (run_calls_keys _ _ _ _ Hrun). right.
      rewrite Hcalls, fmap_app, elem_of_app. right. left.
Qed.

(** C1 (as amended).  After a successful construction every pin that
    appears in the table appears in exactly one of its entries, every
    entry of the table is the lower-cased name and the device of some
    input entry, and an input entry is in the table whenever no entry
    walked after it has the same lower-cased name. *)
Theorem registry_pins_bound_once fx ph re self :
  Pinout_init fx ph re = Return self →
  (∀ pin, pin ∈ pins_of (pins self) →
     length (filter (λ kv, gpio_pin (snd kv) = pin) (items (pins self))) = 1)
  ∧ (∀ name sw, (name, sw) ∈ items (pins self) →
       ∃ c, c ∈ calls fx ph re ∧ call_key c = name ∧ call_pin c = sw)
  ∧ (∀ pre c post, calls fx ph re = pre ++ c :: post →
       (∀ c', c' ∈ post → call_key c' ≠ call_key c) →
       (call_key c, call_pin c) ∈ items (pins self)).
Proof.
  intros (pinout & Hrun & ->)%Pinout_init_Return. unfold pins, items. simpl.
  split_and!.
  - intros pin Hpin.
    assert (NoDup ((λ kv : string * Switchable, gpio_pin (snd kv)) <$> pinout)) as Hnd.
    { change (NoDup (gpio_pin ∘ snd <$> pinout)).
      rewrite (list_fmap_compose snd gpio_pin).
      eapply run_calls_pins_NoDup; [exact Hrun | apply NoDup_nil_2]. }
    apply list_elem_of_fmap in Hpin as (sw & -> & Hsw).
    apply list_elem_of_fmap in Hsw as (kv & -> & Hkv).
    by apply (NoDup_fmap_count (λ kv : string * Switchable, gpio_pin (snd kv))).
  - intros name sw Hin.
    apply elem_dict_getitem in Hin;
      [|eapply run_calls_wf; [exact Hrun | apply NoDup_nil_2]].
    rewrite (run_calls_getitem _ _ _ _ Hrun) in Hin. simpl in Hin.
    apply last_binding_Some in Hin as [[[=] _]|(pre & c & post & Hcs & Hk & Hsw & _)].
    exists c. split; [|done]. rewrite Hcs, elem_of_app. right. left.
  - intros pre c post Hcs Hpost. apply dict_getitem_elem.
    rewrite (run_calls_getitem _ _ _ _ Hrun), Hcs.
    by apply last_binding_split.
Qed.

(** C2 (as amended).  When the walk reaches an entry whose pin is carried
    by an earlier entry that is still bound (no failure so far, and the
    earlier entry's lower-cased name not written again in between), the
    construction fails at that entry: it raises a [ValueError] built
    from the offending device, its category and its name, and from
    nothing else. *)
Theorem duplicate_pin_raises fx ph re pre c1 mid c2 post pinout :
  calls fx ph re = pre ++ c1 :: mid ++ c2 :: post →
  call_gpio c1 = call_gpio c2 →
  (∀ c, c ∈ mid → call_key c ≠ call_key c1) →
  run_calls (pre ++ c1 :: mid) [] = Return pinout →
  Pinout_init fx ph re
  = Raise (ValueError (call_pin c2) (call_category c2) (call_sub_category c2)).
Proof.
  intros Hcalls Hpin Hmid Hrun. apply Pinout_init_Raise. rewrite Hcalls.
  replace (pre ++ c1 :: mid ++ c2 :: post)
    with ((pre ++ c1 :: mid) ++ c2 :: post) by (by rewrite <- app_assoc).
  rewrite run_calls_app, Hrun. simpl.
  by rewrite (run_calls_duplicate _ _ _ _ _ _ Hpin Hmid Hrun).
Qed.

(** C8 (as amended).  When the lower-cased names of the input entries are
    pairwise distinct, the construction succeeds exactly when the input
    pins are pairwise distinct; hence it succeeds for one order of the
    walk if and only if it succeeds for every other. *)
Theorem construction_order_irrelevant fx ph re fx' ph' re' :
  items fx ++ items ph ++ items re ≡ₚ items fx' ++ items ph' ++ items re' →
  NoDup (lower <$> keys (fx ++ ph ++ re)) →
  (is_Return (Pinout_init fx ph re) ↔ NoDup (pins_of (fx ++ ph ++ re)))
  ∧ (is_Return (Pinout_init fx ph re) ↔ is_Return (Pinout_init fx' ph' re')).
Proof.
  unfold items. intros Hperm Hnd.
  split; [by apply Pinout_init_succeeds_iff|].
  rewrite !Pinout_init_succeeds_iff; [|unfold keys in *; by rewrite <- Hperm|done].
  unfold pins_of, values. by rewrite Hperm.
Qed.

(** C10 (as amended).  A repeated name raises nothing: when no pin is
    repeated among the input entries the construction succeeds whatever
    the names are.  On a constructed registry the entry walked last
    among those with the same lower-cased name is the one bound in the
    table, and the pin of an entry whose lower-cased name is used again
    later is absent from the table, provided no other entry of the walk
    carries that pin. *)
Theorem name_collision_overwrites fx ph re :
  (NoDup (call_gpio <$> calls fx ph re) → is_Return (Pinout_init fx ph re))
  ∧ (∀ self, Pinout_init fx ph re = Return self →
       (∀ pre c post, calls fx ph re = pre ++ c :: post →
          (∀ c', c' ∈ post → call_key c' ≠ call_key c) →
          dict_getitem (call_key c) (pins self) = Some (call_pin c))
       ∧ (∀ pre c1 mid c2 post,
            calls fx ph re = pre ++ c1 :: mid ++ c2 :: post →
            call_key c1 = call_key c2 →
            (∀ c, c ∈ pre ++ mid ++ c2 :: post → call_gpio c ≠ call_gpio c1) →
            call_gpio c1 ∉ pins_of (pins self))).
Proof.
  split.
  - intros Hnd. apply Pinout_init_is_Return.
    apply run_calls_distinct_pins; [done|].
    intros c _ Hin. by apply elem_of_nil in Hin.
  - intros self (pinout & Hrun & ->)%Pinout_init_Return. unfold pins. simpl.
    split.
    + intros pre c post Hcs Hpost.
      rewrite (run_calls_getitem _ _ _ _ Hrun), Hcs. by apply last_binding_split.
    + intros pre c1 mid c2 post Hcs Hkey Hother Hin.
      apply list_elem_of_fmap in Hin as (sw & Hsw & Hin).
      apply list_elem_of_fmap in Hin as ([k sw'] & -> & Hin). simpl in Hsw.
      apply elem_dict_getitem in Hin;
        [|eapply run_calls_wf; [exact Hrun | apply NoDup_nil_2]].
      rewrite (run_calls_getitem _ _ _ _ Hrun) in Hin. simpl in Hin.
      apply last_binding_Some in Hin
        as [[[=] _]|(pre' & c & post' & Hcs' & Hk & <- & Hpost')].
      rewrite Hcs in Hcs'.
      destruct (app_cons_two_splits pre c1 (mid ++ c2 :: post) pre' c post' Hcs')
        as [(_ & -> & <-)|[Hc|Hc]].
      * apply (Hpost' c2); [|congruence].
        rewrite elem_of_app. right. left.
      * apply (Hother c); [|done]. rewrite elem_of_app. by left.
      * apply (Hother c); [|done]. rewrite elem_of_app. by right.
Qed.

(** C6 (as amended).  On a constructed registry [valves()] is a
    sub-view of [pins()] that holds no [Switch]; built from the fixed
    table (seven valves and the pump switch) and configurable maps
    holding only valves, with all names distinct after lower-casing, it
    has 7 + K entries, K being the number of configurable entries. *)
Theorem valves_view ph re self :
  Pinout_new ph re = Return self →
  sublist (valves self) (items (pins self))
  ∧ (∀ name sw, (name, sw) ∈ valves self →
       (name, sw) ∈ items (pins self) ∧ isinstance_Valve sw = true)
  ∧ (∀ name pin, (name, Switch pin) ∉ valves self)
  ∧ ((∀ name sw, (name, sw) ∈ ph ++ re → isinstance_Valve sw = true) →
     NoDup (lower <$> keys (fixed ++ ph ++ re)) →
     length (valves self) = 7 + (length ph + length re)).
Proof.
  intros (pinout & Hrun & ->)%Pinout_init_Return.
  unfold valves, pins, items. simpl. split_and!.
  - apply sublist_filter.
  - intros name sw [Hv Hin]%list_elem_of_filter. done.
  - intros name pin [Hv _]%list_elem_of_filter. done.
  - intros Hvalves Hnd.
    apply run_calls_fresh in Hrun;
      [|rewrite call_key_calls, <- !keys_app; exact Hnd].
    rewrite Hrun, app_nil_l. unfold calls.
    rewrite !bindings_of_app, !filter_app, !length_app.
    rewrite (valves_of_bindings "phosphoramidites" ph),
      (valves_of_bindings "reactants" re).
    + reflexivity.
    + intros name sw Hin. apply (Hvalves name). rewrite elem_of_app. by right.
    + intros name sw Hin. apply (Hvalves name). rewrite elem_of_app. by left.
Qed.

(** C3 (as amended).  The duplicate check is blind to the variant.  The
    equality it uses holds exactly when the two devices wrap the same
    pin, and the outcome of a construction is unchanged when the tags of
    the devices are changed (same success, same failing entry).  A
    configurable valve wired to P11, the pin of the fixed switch "pump",
    makes the construction raise the [ValueError] of a duplicate pin, at
    that valve at the latest, as long as no configurable entry walked
    before it is named "pump"; and the same holds, in the same words,
    for the pin and the name of every fixed entry, valve or switch. *)
Theorem duplicate_detection_variant_blind :
  (∀ sw sw', Switchable_eq sw sw' = true ↔ gpio_pin sw = gpio_pin sw')
  ∧ (∀ fx ph re fx' ph' re',
       same_wiring fx fx' → same_wiring ph ph' → same_wiring re re' →
       (is_Return (Pinout_init fx ph re) ↔ is_Return (Pinout_init fx' ph' re'))
       ∧ (∀ sw cat sub,
            Pinout_init fx ph re = Raise (ValueError sw cat sub) →
            ∃ sw', gpio_pin sw' = gpio_pin sw
                   ∧ Pinout_init fx' ph' re' = Raise (ValueError sw' cat sub)))
  ∧ (∀ ph re pre c post,
       calls_of "phosphoramidites" ph ++ calls_of "reactants" re = pre ++ c :: post →
       call_pin c = Valve P11 →
       (∀ c', c' ∈ pre → call_key c' ≠ "pump") →
       ∃ c0, c0 ∈ calls_of "fixed" fixed ++ pre ++ [c]
             ∧ Pinout_new ph re
               = Raise (ValueError (call_pin c0) (call_category c0)
                          (call_sub_category c0)))
  ∧ (∀ fname fsw ph re pre c post,
       (fname, fsw) ∈ items fixed →
       calls_of "phosphoramidites" ph ++ calls_of "reactants" re = pre ++ c :: post →
       call_gpio c = gpio_pin fsw →
       (∀ c', c' ∈ pre → call_key c' ≠ fname) →
       ∃ c0, c0 ∈ calls_of "fixed" fixed ++ pre ++ [c]
             ∧ Pinout_new ph re
               = Raise (ValueError (call_pin c0) (call_category c0)
                          (call_sub_category c0))).
Proof.
  assert (∀ fname fsw ph re pre c post,
    (fname, fsw) ∈ items (@fixed Board _) →
    calls_of "phosphoramidites" ph ++ calls_of "reactants" re = pre ++ c :: post →
    call_gpio c = gpio_pin fsw →
    (∀ c', c' ∈ pre → call_key c' ≠ fname) →
    ∃ c0, c0 ∈ calls_of "fixed" fixed ++ pre ++ [c]
          ∧ Pinout_new ph re
            = Raise (ValueError (call_pin c0) (call_category c0)
                       (call_sub_category c0))) as Hfixed.
  { intros fname fsw ph re pre c post Hin Hconf Hpin Hpre.
    assert (call_key (MkCall fsw "fixed" fname) = fname) as Hkey.
    { unfold call_key. simpl.
      assert (Forall (λ k, lower k = k) (keys (@fixed Board _))) as Hlow
        by (apply (bool_decide_unpack _); by vm_compute).
      rewrite Forall_forall in Hlow. apply Hlow.
      change fname with (fst (fname, fsw)). by apply list_elem_of_fmap_2. }
    assert (NoDup (call_key <$> calls_of "fixed" (@fixed Board _))) as Hnd
      by (apply (bool_decide_unpack _); by vm_compute).
    assert (MkCall fsw "fixed" fname ∈ calls_of "fixed" (@fixed Board _)) as Hcf.
    { unfold calls_of.
      by apply (list_elem_of_fmap_2
                  (λ kv : string * Switchable, MkCall (snd kv) "fixed" (fst kv))
                  _ (fname, fsw)). }
    apply list_elem_of_split in Hcf as (a & b & Hsplit).
    rewrite Hsplit, fmap_app, fmap_cons in Hnd.
    apply NoDup_app in Hnd as (_ & _ & [Hb _]%NoDup_cons).
    destruct (run_calls_duplicate_Raise a (MkCall fsw "fixed" fname)
                (b ++ pre) c [] []) as [e He].
    { by rewrite Hpin. }
    { intros c' [Hc'|Hc']%elem_of_app.
      - intros Heq. apply Hb. rewrite <- Heq. by apply list_elem_of_fmap_2.
      - rewrite Hkey. by apply Hpre. }
    replace (a ++ MkCall fsw "fixed" fname :: (b ++ pre) ++ [c])
      with (calls_of "fixed" (@fixed Board _) ++ pre ++ [c]) in He
      by (rewrite Hsplit, <- !app_assoc; done).
    destruct (run_calls_only_ValueError _ _ _ He) as (c0 & Hc0 & ->).
    exists c0. split; [done|].
    unfold Pinout_new. apply Pinout_init_Raise.
    replace (calls fixed ph re)
      with ((calls_of "fixed" (@fixed Board _) ++ pre ++ [c]) ++ post).
    - by apply run_calls_raise_prefix.
    - unfold calls. by rewrite Hconf, <- !app_assoc. }
  split_and!.
  - intros sw sw'. unfold Switchable_eq. apply bool_decide_eq_true.
  - intros fx ph re fx' ph' re' Hfx Hph Hre.
    assert (same_outcome (run_calls (calls fx ph re) [])
              (run_calls (calls fx' ph' re') [])) as Hout.
    { apply run_calls_same_wiring; [|constructor].
      unfold calls. repeat apply Forall2_app; by apply calls_of_same_wiring. }
    rewrite !Pinout_init_is_Return. unfold same_outcome in Hout. split.
    + destruct (run_calls (calls fx ph re) []) as [p|[]],
        (run_calls (calls fx' ph' re') []) as [p'|[]]; try done.
      * split; intros _; by eexists.
      * split; by intros [? [=]].
    + intros sw cat sub Hraise%Pinout_init_Raise. rewrite Hraise in Hout.
      destruct (run_calls (calls fx' ph' re') []) as [p'|[sw' cat' sub'|]] eqn:Hrun';
        try done.
      destruct Hout as (Hpin & -> & ->). exists sw'. split; [done|].
      by apply Pinout_init_Raise.
  - intros ph re pre c post Hconf Hc Hpre.
    apply (Hfixed "pump" (Switch P11) ph re pre c post); [|done| |done].
    + unfold items, fixed. do 7 right. left.
    + unfold call_gpio. by rewrite Hc.
  - exact Hfixed.
Qed.

End Claims.

(* ================================================================== *)
(** * Further properties of the code *)

Section MoreFacts.
Context {Board : Type} `{Finite Board} `{BoardNames Board}.
Implicit Types (pinout : dict (@Switchable Board)) (sw : @Switchable Board).
Implicit Types (c : @Call Board) (cs : list (@Call Board)).
Implicit Types (fx ph re d : dict (@Switchable Board)) (self : @Pinout Board).
Implicit Types (e : @Exception Board) (pin : Board).

Lemma elem_list_configurable_pins_of fx pin :
  pin ∈ list_configurable_pins_of fx ↔ pin ∉ pins_of fx.
Proof.
  unfold list_configurable_pins_of. cbv zeta.
  rewrite list_elem_of_filter. fold (pins_of fx).
  split; [by intros [? _] | intros ?; split; [done | apply elem_of_enum]].
Qed.

Lemma length_list_configurable_pins_of fx :
  NoDup (pins_of fx) →
  length (list_configurable_pins_of fx) + length (pins_of fx) = length (enum Board).
Proof.
  intros Hnd.
  rewrite <- (Permutation_length
    (filter_app_complement (λ pin, pin ∉ pins_of fx) (enum Board))).
  rewrite length_app. unfold list_configurable_pins_of. cbv zeta.
  fold (pins_of fx). f_equal. apply Permutation_length.
  apply NoDup_Permutation; [done | apply NoDup_filter, NoDup_enum |].
  intros pin. rewrite list_elem_of_filter. split.
  - intros Hin. split; [by intros ? | apply elem_of_enum].
  - intros [Hnn _]. by apply dec_stable.
Qed.

(** [init_pinout] on any object, as the run of its calls from the table
    the object holds. *)
Lemma init_pinout_calls fx ph re pinout :
  init_pinout (MkPinout fx ph re pinout) =
  (try! pinout' := run_calls (calls fx ph re) pinout in
   Return (MkPinout fx ph re pinout')).
Proof.
  unfold init_pinout, calls. simpl. unfold items.
  rewrite run_calls_app, init_pinout_items_calls.
  destruct (run_calls (calls_of "fixed" fx) pinout) as [p1|]; simpl; [|done].
  rewrite run_calls_app, init_pinout_items_calls.
  destruct (run_calls (calls_of "phosphoramidites" ph) p1) as [p2|]; simpl; [|done].
  rewrite init_pinout_items_calls.
  by destruct (run_calls (calls_of "reactants" re) p2).
Qed.

Lemma run_calls_Raise_iff cs pinout e :
  run_calls cs pinout = Raise e ↔
  ∃ pre c post partial,
    cs = pre ++ c :: post
    ∧ run_calls pre pinout = Return partial
    ∧ in_values (call_pin c) partial = true
    ∧ e = ValueError (call_pin c) (call_category c) (call_sub_category c).
Proof.
  split.
  - revert pinout. induction cs as [|c cs IH]; intros pinout; simpl; [done|].
    unfold add_pinout_safe.
    destruct (in_values (call_pin c) pinout) eqn:Hin; simpl.
    + intros [= <-]. by exists [], c, cs, pinout.
    + intros (pre & c' & post & partial & -> & Hpre & Hc' & ->)%IH.
      exists (c :: pre), c', post, partial. split_and!; try done.
      simpl. unfold add_pinout_safe. by rewrite Hin.
  - intros (pre & c & post & partial & -> & Hpre & Hc & ->).
    rewrite run_calls_app, Hpre. simpl. unfold add_pinout_safe. by rewrite Hc.
Qed.

Lemma bindings_of_calls fx ph re :
  bindings_of (calls fx ph re)
  = (λ kv, (lower (fst kv), snd kv)) <$> (fx ++ ph ++ re).
Proof.
  assert (∀ key d, bindings_of (calls_of key d)
                   = (λ kv, (lower (fst kv), snd kv)) <$> d) as Hone.
  { intros key d. unfold bindings_of, calls_of, items.
    rewrite <- list_fmap_compose. by apply list_fmap_ext. }
  unfold calls. by rewrite !bindings_of_app, !Hone, !fmap_app.
Qed.

Lemma dict_getitem_filter {V} (P : string * V → Prop) `{∀ kv, Decision (P kv)}
    (k : string) (d : dict V) :
  dict_wf d →
  dict_getitem k (filter P d) =
  match dict_getitem k d with
  | Some v => if decide (P (k, v)) then Some v else None
  | None => None
  end.
Proof.
  unfold dict_wf. induction d as [|[k' v'] d IH]; simpl; [done|].
  rewrite NoDup_cons. intros [Hk' Hnd].
  destruct (decide (k' = k)) as [->|Hne].
  - destruct (decide (P (k, v'))) as [HP|HP].
    + rewrite filter_cons_True by done. simpl. by rewrite decide_True.
    + rewrite filter_cons_False by done. rewrite IH by done.
      apply dict_getitem_None in Hk'. by rewrite Hk'.
  - destruct (decide (P (k', v'))) as [HP|HP].
    + rewrite filter_cons_True by done. simpl.
      rewrite decide_False by done. by apply IH.
    + rewrite filter_cons_False by done. by apply IH.
Qed.

(** *** The table [fixed] *)

Lemma fixed_wf : dict_wf (@fixed Board _).
Proof. unfold dict_wf. apply (bool_decide_unpack _). by vm_compute. Qed.

Lemma fixed_keys_lower k : k ∈ keys (@fixed Board _) → lower k = k.
Proof.
  revert k. apply Forall_forall. apply (bool_decide_unpack _). by vm_compute.
Qed.

Lemma run_calls_fixed :
  NoDup (pins_of (@fixed Board _)) →
  run_calls (calls_of "fixed" fixed) [] = Return (@fixed Board _).
Proof.
  intros Hnd.
  destruct (run_calls_distinct_pins (calls_of "fixed" (@fixed Board _)) [])
    as [p1 Hrun].
  - by rewrite call_gpio_calls_of.
  - intros c _ Hin. by apply elem_of_nil in Hin.
  - rewrite Hrun. f_equal.
    apply run_calls_fresh in Hrun; [by rewrite Hrun|].
    apply (bool_decide_unpack _). by vm_compute.
Qed.

(** Keys that no call writes keep their binding. *)
Lemma run_calls_untouched cs pinout pinout' k :
  run_calls cs pinout = Return pinout' →
  (∀ c, c ∈ cs → call_key c ≠ k) →
  dict_getitem k pinout' = dict_getitem k pinout.
Proof.
  intros Hrun Hk. rewrite (run_calls_getitem _ _ _ k Hrun).
  by apply last_binding_fresh.
Qed.

(** *** The case of the names plays no part in a run *)

Lemma calls_of_same_entries key d d' :
  same_entries d d' → Forall2 same_binding (calls_of key d) (calls_of key d').
Proof.
  unfold same_entries, calls_of, items.
  induction 1 as [|[k v] [k' v'] p p' [Hk Hv] _ IH]; simpl in *;
    constructor; [by split | done].
Qed.

Lemma run_calls_same_binding cs cs' pinout :
  Forall2 same_binding cs cs' →
  (∀ pinout', run_calls cs pinout = Return pinout' →
              run_calls cs' pinout = Return pinout')
  ∧ (is_Raise (run_calls cs pinout) → is_Raise (run_calls cs' pinout)).
Proof.
  intros Hcs. revert pinout.
  induction Hcs as [|c c' cs cs' [Hkey Hpin] _ IH]; intros pinout; simpl; [done|].
  unfold add_pinout_safe. rewrite <- Hpin.
  destruct (in_values (call_pin c) pinout); simpl.
  - split; [done | intros _; by eexists].
  - fold (call_key c) (call_key c'). rewrite <- Hkey. apply IH.
Qed.

End MoreFacts.

Section Extras.
Context {Board : Type} `{Finite Board} `{BoardNames Board}.
Implicit Types (pinout : dict (@Switchable Board)) (sw : @Switchable Board).
Implicit Types (c : @Call Board) (cs : list (@Call Board)).
Implicit Types (fx ph re d : dict (@Switchable Board)) (self : @Pinout Board).
Implicit Types (e : @Exception Board) (pin : Board).

(** X1.  [list_configurable_pins()] and the pins of [fixed] split the
    board: the list keeps the order of the enumeration, every pin of the
    board is listed or fixed, and when the eight fixed pins are pairwise
    distinct the list has eight pins fewer than the board. *)
Theorem configurable_pins_partition :
  sublist list_configurable_pins (enum Board)
  ∧ (∀ pin, pin ∈ list_configurable_pins ∨ pin ∈ pins_of fixed)
  ∧ (NoDup (pins_of fixed) →
     length (@list_configurable_pins Board _ _ _) + 8 = length (enum Board)).
Proof.
  split_and!.
  - apply sublist_filter.
  - intros pin. unfold list_configurable_pins.
    rewrite elem_list_configurable_pins_of.
    destruct (decide (pin ∈ pins_of fixed)); [by right | by left].
  - intros Hnd. by rewrite <- (length_list_configurable_pins_of fixed Hnd).
Qed.

(** X2.  A configuration assembled from [list_configurable_pins()] is
    accepted: when the fixed pins are pairwise distinct, every
    configurable device sits on a listed pin and no two configurable
    devices share a pin, the constructor returns a registry, whatever
    the names are. *)
Theorem configurable_wiring_constructs ph re :
  NoDup (pins_of fixed) →
  (∀ name sw, (name, sw) ∈ ph ++ re → gpio_pin sw ∈ list_configurable_pins) →
  NoDup (pins_of (ph ++ re)) →
  is_Return (Pinout_new ph re).
Proof.
  intros Hfixed Hlisted Hconf. apply Pinout_init_is_Return.
  apply run_calls_distinct_pins.
  - rewrite call_gpio_calls, pins_of_app. apply NoDup_app. split_and!; [done| |done].
    intros pin Hpin (sw & -> & Hsw)%list_elem_of_fmap.
    apply list_elem_of_fmap in Hsw as ([name sw'] & -> & Hin).
    apply (Hlisted name), elem_list_configurable_pins_of in Hin. done.
  - intros c _ Hin. by apply elem_of_nil in Hin.
Qed.

(** X4.  A construction fails exactly when the walk reaches an entry
    whose pin is held by the table built from the entries before it; the
    exception is the [ValueError] of that first entry, and no other kind
    of exception leaves the constructor. *)
Theorem construction_fails_at_first_bound_pin fx ph re e :
  Pinout_init fx ph re = Raise e ↔
  ∃ pre c post partial,
    calls fx ph re = pre ++ c :: post
    ∧ run_calls pre [] = Return partial
    ∧ in_values (call_pin c) partial = true
    ∧ e = ValueError (call_pin c) (call_category c) (call_sub_category c).
Proof. rewrite Pinout_init_Raise. apply run_calls_Raise_iff. Qed.

(** X5.  Lookup after construction: [get(query)] returns a device exactly
    when that device belongs to the last input entry whose lower-cased
    name is the lower-cased query. *)
Theorem get_returns_last_entry fx ph re self query sw :
  Pinout_init fx ph re = Return self →
  get self query = Return sw ↔
  ∃ pre c post,
    calls fx ph re = pre ++ c :: post
    ∧ call_key c = lower query ∧ call_pin c = sw
    ∧ ∀ c', c' ∈ post → call_key c' ≠ lower query.
Proof.
  intros (pinout & Hrun & ->)%Pinout_init_Return. unfold get. simpl.
  rewrite (run_calls_getitem _ _ _ (lower query) Hrun). simpl. split.
  - destruct (last_binding (lower query) (calls fx ph re) None) as [sw'|] eqn:Hlast;
      [|done].
    intros [= ->].
    apply last_binding_Some in Hlast
      as [[[=] _]|(pre & c & post & Hcs & Hk & Hsw & Hpost)].
    by exists pre, c, post.
  - intros (pre & c & post & -> & Hk & <- & Hpost).
    by rewrite (last_binding_split (lower query) pre c post None Hk Hpost).
Qed.

(** X6.  When the lower-cased names of the input entries are pairwise
    distinct, the table of a constructed registry is the list of the
    input entries in the order of the walk (fixed, phosphoramidites,
    reactants), each under its lower-cased name. *)
Theorem pins_in_walk_order fx ph re self :
  NoDup (lower <$> keys (fx ++ ph ++ re)) →
  Pinout_init fx ph re = Return self →
  pins self = (λ kv, (lower (fst kv), snd kv)) <$> (fx ++ ph ++ re).
Proof.
  intros Hnd (pinout & Hrun & ->)%Pinout_init_Return. unfold pins. simpl.
  apply run_calls_fresh in Hrun;
    [|rewrite call_key_calls, <- !keys_app; exact Hnd].
  by rewrite Hrun, app_nil_l, bindings_of_calls.
Qed.

(** X3.  The fixed wiring is protected: when no configurable name is,
    lower-cased, one of the fixed names, a registry that the constructor
    returns still binds every fixed name to its fixed device, and every
    configurable device sits on a pin of [list_configurable_pins()]. *)
Theorem fixed_bindings_protected ph re self :
  (∀ name, name ∈ keys ph ++ keys re → lower name ∉ keys fixed) →
  Pinout_new ph re = Return self →
  (∀ name sw, (name, sw) ∈ items fixed → get self name = Return sw)
  ∧ (∀ name sw, (name, sw) ∈ ph ++ re → gpio_pin sw ∈ list_configurable_pins).
Proof.
  intros Hnames (pinout & Hrun & ->)%Pinout_init_Return.
  unfold calls in Hrun. rewrite run_calls_app in Hrun.
  destruct (run_calls (calls_of "fixed" fixed) []) as [p1|] eqn:Hfix;
    simpl in Hrun; [|done].
  assert (NoDup (pins_of (@fixed Board _))) as Hpins.
  { rewrite <- call_gpio_calls_of with (key := "fixed").
    apply (run_calls_Return_iff (calls_of "fixed" fixed) []); [|by exists p1].
    apply (bool_decide_unpack _). by vm_compute. }
  rewrite (run_calls_fixed Hpins) in Hfix. injection Hfix as <-.
  set (conf := calls_of "phosphoramidites" ph ++ calls_of "reactants" re) in *.
  assert (∀ c, c ∈ conf → call_key c ∉ keys (@fixed Board _)) as Hconf.
  { intros c Hc. assert (call_key c ∈ call_key <$> conf) as Hk
      by by apply list_elem_of_fmap_2.
    unfold conf in Hk. rewrite fmap_app, !call_key_calls_of, <- fmap_app in Hk.
    apply list_elem_of_fmap in Hk as (name & -> & Hname). by apply Hnames. }
  assert (∀ pre partial k, pre `prefix_of` conf →
            run_calls pre fixed = Return partial → k ∈ keys (@fixed Board _) →
            dict_getitem k partial = dict_getitem k fixed) as Hkeep.
  { intros pre partial k [post Hpost] Hpre Hk.
    apply (run_calls_untouched _ _ _ _ Hpre).
    intros c Hc Heq. subst k. apply (Hconf c); [|done].
    rewrite Hpost, elem_of_app. by left. }
  split.
  - intros name sw Hin. unfold get. simpl.
    assert (name ∈ keys (@fixed Board _)) as Hname.
    { change name with (fst (name, sw)). by apply list_elem_of_fmap_2. }
    rewrite (fixed_keys_lower _ Hname).
    rewrite (Hkeep conf pinout name); [|done|done|done].
    by rewrite (elem_dict_getitem _ _ _ fixed_wf Hin).
  - intros name sw Hin. unfold list_configurable_pins.
    apply elem_list_configurable_pins_of. intros Hpin.
    assert (∃ cat, MkCall sw cat name ∈ conf) as [cat Hc].
    { unfold conf, calls_of, items.
      apply elem_of_app in Hin as [Hph|Hre];
        [exists "phosphoramidites" | exists "reactants"];
        rewrite elem_of_app; [left | right];
        by apply (list_elem_of_fmap_2
              (λ kv : string * Switchable, MkCall (snd kv) _ (fst kv)) _ (name, sw)). }
    apply list_elem_of_split in Hc as (pre & post & Hsplit).
    assert (pre `prefix_of` conf) as Hprefix by (rewrite Hsplit; by eexists).
    rewrite Hsplit, run_calls_app in Hrun.
    destruct (run_calls pre fixed) as [partial|] eqn:Hpre; simpl in Hrun; [|done].
    destruct (add_pinout_safe _ _ _ _) as [p2|] eqn:Hadd; simpl in Hrun; [|done].
    apply add_pinout_safe_Return in Hadd as [Hfresh _]. simpl in Hfresh.
    apply Hfresh.
    apply list_elem_of_fmap in Hpin as (fsw & -> & Hfsw).
    apply list_elem_of_fmap in Hfsw as ([fname fsw'] & -> & Hfixed). simpl.
    unfold pins_of, values. apply list_elem_of_fmap_2.
    change fsw' with (snd (fname, fsw')). apply list_elem_of_fmap_2.
    apply dict_getitem_elem.
    rewrite (Hkeep pre partial fname); [|done|done|].
    + by apply elem_dict_getitem; [apply fixed_wf|].
    + change fname with (fst (fname, fsw')). by apply list_elem_of_fmap_2.
Qed.

(** X7.  The table of a constructed registry has no repeated key, its
    keys are exactly the lower-cased names of the input entries, and it
    has at most as many entries as the input maps together. *)
Theorem registry_keys fx ph re self :
  Pinout_init fx ph re = Return self →
  NoDup (keys (pins self))
  ∧ (∀ k, k ∈ keys (pins self) ↔ k ∈ lower <$> keys (fx ++ ph ++ re))
  ∧ (length (pins self) ≤ length fx + length ph + length re)%nat.
Proof.
  intros (pinout & Hrun & ->)%Pinout_init_Return. unfold pins. simpl.
  assert (NoDup (keys pinout)) as Hnd.
  { eapply run_calls_wf; [exact Hrun | apply NoDup_nil_2]. }
  assert (∀ k, k ∈ keys pinout ↔ k ∈ lower <$> keys (fx ++ ph ++ re)) as Hkeys.
  { intros k. rewrite (run_calls_keys _ _ _ _ Hrun), call_key_calls, !keys_app.
    split; [intros [Hin|?]; [by apply elem_of_nil in Hin | done] | by right]. }
  split_and!; [done | done |].
  assert (keys pinout ⊆+ lower <$> keys (fx ++ ph ++ re)) as Hsub.
  { apply NoDup_submseteq; [done|]. intros k. apply Hkeys. }
  apply submseteq_length in Hsub. unfold keys in Hsub.
  rewrite !length_fmap, !length_app in Hsub. lia.
Qed.

(** X8.  On a constructed registry [valves()] agrees with [pins()] on
    every key bound to a [Valve] and has no other key. *)
Theorem valves_lookup fx ph re self k :
  Pinout_init fx ph re = Return self →
  dict_getitem k (valves self) =
  match dict_getitem k (pins self) with
  | Some sw => if isinstance_Valve sw then Some sw else None
  | None => None
  end.
Proof.
  intros (pinout & Hrun & ->)%Pinout_init_Return. unfold valves, pins, items. simpl.
  rewrite dict_getitem_filter
    by (eapply run_calls_wf; [exact Hrun | apply NoDup_nil_2]).
  destruct (dict_getitem k pinout) as [sw|]; [|done]. simpl.
  by destruct (isinstance_Valve sw).
Qed.

(** X9.  [init_pinout] is not to be run twice: on a registry that the
    constructor returned, a second [init_pinout()] raises the
    [ValueError] of the first entry of the walk, provided no later entry
    has taken that entry's lower-cased name. *)
Theorem init_pinout_again_raises fx ph re self c post :
  Pinout_init fx ph re = Return self →
  calls fx ph re = c :: post →
  (∀ c', c' ∈ post → call_key c' ≠ call_key c) →
  init_pinout self
  = Raise (ValueError (call_pin c) (call_category c) (call_sub_category c)).
Proof.
  intros (pinout & Hrun & ->)%Pinout_init_Return Hcalls Hpost.
  rewrite init_pinout_calls, Hcalls. simpl.
  assert (add_pinout_safe pinout (call_pin c) (call_category c) (call_sub_category c)
          = Raise (ValueError (call_pin c) (call_category c) (call_sub_category c)))
    as ->; [|done].
  apply add_pinout_safe_Raise. split; [|done].
  rewrite Hcalls in Hrun.
  apply (run_calls_getitem _ _ _ (call_key c)) in Hrun.
  rewrite (last_binding_split (call_key c) [] c post) in Hrun by done.
  apply dict_getitem_elem in Hrun.
  unfold pins_of, values. apply list_elem_of_fmap_2.
  change (call_pin c) with (snd (call_key c, call_pin c)).
  by apply list_elem_of_fmap_2.
Qed.

(** X11.  Names are case-insensitive at construction too: two
    configurations that hold the same devices in the same order, under
    names that differ at most in letter case, are accepted or refused
    together, and when accepted give the same table. *)
Theorem construction_ignores_case fx ph re fx' ph' re' :
  same_entries fx fx' → same_entries ph ph' → same_entries re re' →
  (∀ self, Pinout_init fx ph re = Return self →
     Pinout_init fx' ph' re' = Return (MkPinout fx' ph' re' (pins self)))
  ∧ (is_Raise (Pinout_init fx ph re) → is_Raise (Pinout_init fx' ph' re')).
Proof.
  intros Hfx Hph Hre.
  destruct (run_calls_same_binding (calls fx ph re) (calls fx' ph' re') [])
    as [Hret Hraise].
  { unfold calls. repeat apply Forall2_app; by apply calls_of_same_entries. }
  split.
  - intros self (pinout & Hrun & ->)%Pinout_init_Return.
    apply Pinout_init_Return. exists pinout. split; [by apply Hret | done].
  - intros [e He%Pinout_init_Raise].
    destruct Hraise as [e' He']; [by exists e|].
    exists e'. by apply Pinout_init_Raise.
Qed.

End Extras.

Section ExtrasModels.
Variable Seq_raises : string → option string.

(** X10.  [ValidSeq] accepts a value exactly when [Seq] accepts it and
    its length is between 3 and 100, both included.  Otherwise it raises
    a [ValidationError]: with the text of [Seq]'s error when [Seq]
    rejects the value, whatever its length, and with the text of the
    failed length assertion when [Seq] accepts it. *)
Theorem ValidSeq_accepts_iff value :
  (ValidSeq_call Seq_raises value = Return tt ↔
   Seq_raises value = None ∧ (3 ≤ String.length value ≤ 100)%nat)
  ∧ (∀ msg, Seq_raises value = Some msg →
       ValidSeq_call Seq_raises value = Raise (MkValidationError msg))
  ∧ (Seq_raises value = None → (String.length value < 3)%nat →
       ValidSeq_call Seq_raises value
       = Raise (MkValidationError "Sequence must be at least 3 bases long"))
  ∧ (Seq_raises value = None → (100 < String.length value)%nat →
       ValidSeq_call Seq_raises value
       = Raise (MkValidationError "Sequence must be at most 100 bases long")).
Proof.
  unfold ValidSeq_call. split_and!.
  - destruct (Seq_raises value) as [msg|]; [split; [done | by intros [? _]]|].
    destruct (Nat.leb_spec 3 (String.length value));
      destruct (Nat.leb_spec (String.length value) 100); simpl;
      split; try done; try (intros [_ ?]; lia).
  - by intros msg ->.
  - intros -> Hlen.
    destruct (Nat.leb_spec 3 (String.length value)); [lia | done].
  - intros -> Hlen.
    destruct (Nat.leb_spec 3 (String.length value)); [|lia].
    destruct (Nat.leb_spec (String.length value) 100); [lia | done].
Qed.

End ExtrasModels.

(* ================================================================== *)
(** * Concrete runs on the Raspberry Pi header *)

(** The table [fixed] and [str.lower], evaluated. *)
Example fixed_on_header :
  fixed = [ ("waste", Valve RPi.P7); ("waste_rxn", Valve RPi.P5);
            ("prod", Valve RPi.P8); ("branch", Valve RPi.P12);
            ("rxn_out", Valve RPi.P13); ("sol", Valve RPi.P3);
            ("gas", Valve RPi.P10); ("pump", Switch RPi.P11) ].
Proof. reflexivity. Qed.

Example lower_mixed_case : lower "Waste_RXN-2" = "waste_rxn-2".
Proof. reflexivity. Qed.

Example configurable_pins_on_header :
  @list_configurable_pins RPi.Board _ _ _
  = [RPi.P15; RPi.P16; RPi.P18; RPi.P19; RPi.P21; RPi.P22; RPi.P23;
     RPi.P24; RPi.P26].
Proof. reflexivity. Qed.

(** The end-to-end scenario of the specification, with the reagent
    valve on pin 15. *)
Example end_to_end :
  ∃ self, Pinout_new [("reagentA", Valve RPi.P15)] [] = Return self
    ∧ get self "reagentA" = Return (Valve RPi.P15)
    ∧ keys (valves self)
      = ["waste"; "waste_rxn"; "prod"; "branch"; "rxn_out"; "sol"; "gas";
         "reagenta"]
    ∧ keys (pins self)
      = ["waste"; "waste_rxn"; "prod"; "branch"; "rxn_out"; "sol"; "gas";
         "pump"; "reagenta"].
Proof. eexists. split_and!; reflexivity. Qed.

(** C7 on the concrete header: pin 15 is configurable, pin 7 (waste) and
    pin 11 (pump) are not. *)
Lemma list_configurable_pins_complement_witness :
  RPi.P15 ∈ @list_configurable_pins RPi.Board _ _ _
  ∧ (RPi.P7 ∉ @list_configurable_pins RPi.Board _ _ _)
  ∧ (RPi.P11 ∉ @list_configurable_pins RPi.Board _ _ _).
Proof.
  destruct (@list_configurable_pins_complement RPi.Board _ _ _)
    as (Hiff & Hfixed & _ & _).
  split_and!.
  - apply Hiff. intros (name & sw & Hin & Hpin). unfold items, fixed in Hin.
    repeat (apply elem_of_cons in Hin as [[= -> ->]|Hin];
            [vm_compute in Hpin; discriminate Hpin|]).
    by apply elem_of_nil in Hin.
  - apply Hfixed. apply (bool_decide_unpack _). by vm_compute.
  - apply Hfixed. apply (bool_decide_unpack _). by vm_compute.
Defined.

(** C1 fails as stated: "Waste" in a configurable map takes the key of
    the fixed entry "waste", the construction succeeds, and P7, the pin
    of an input device, is in no entry of the table. *)
Lemma C1_overwritten_pin_counterexample :
  ∃ self,
    Pinout_new [("Waste", Valve RPi.P15)] [] = Return self
    ∧ RPi.P7 ∈ pins_of (fixed ++ [("Waste", Valve RPi.P15)] ++ [])
    ∧ filter (λ kv, gpio_pin (snd kv) = RPi.P7) (items (pins self)) = [].
Proof.
  eexists. split_and!.
  - reflexivity.
  - apply (bool_decide_unpack _). by vm_compute.
  - reflexivity.
Qed.

(** C1 as amended, on an input with a name used twice. *)
Lemma registry_pins_bound_once_witness :
  ∃ self,
    Pinout_new [("A", Valve RPi.P15)] [("a", Valve RPi.P16)] = Return self
    ∧ ∀ pin, pin ∈ pins_of (pins self) →
        length (filter (λ kv, gpio_pin (snd kv) = pin) (items (pins self))) = 1.
Proof.
  eexists. split; [reflexivity|].
  apply (registry_pins_bound_once fixed
           [("A", Valve RPi.P15)] [("a", Valve RPi.P16)]).
  reflexivity.
Defined.

(** C2 fails as stated, twice over: two entries may carry the same pin
    and the construction succeed (the first was overwritten by name
    before the second came), and the error is the same whichever name
    claimed the pin first. *)
Lemma C2_duplicate_error_counterexample :
  (∃ self, Pinout_new [("A", Valve RPi.P15)]
                      [("a", Valve RPi.P16); ("b", Valve RPi.P15)] = Return self)
  ∧ Pinout_new [("first", Valve RPi.P15)] [("x", Valve RPi.P15)]
    = Raise (ValueError (Valve RPi.P15) "reactants" "x")
  ∧ Pinout_new [("other", Valve RPi.P15)] [("x", Valve RPi.P15)]
    = Raise (ValueError (Valve RPi.P15) "reactants" "x").
Proof. split_and!; [eexists|..]; reflexivity. Qed.

(** C2 as amended: a reagent valve on the pin of "waste". *)
Lemma duplicate_pin_raises_witness :
  Pinout_new [("reagentA", Valve RPi.P7)] []
  = Raise (ValueError (Valve RPi.P7) "phosphoramidites" "reagentA").
Proof.
  apply (duplicate_pin_raises fixed [("reagentA", Valve RPi.P7)] []
           [] (MkCall (Valve RPi.P7) "fixed" "waste")
           (tail (calls_of "fixed" fixed))
           (MkCall (Valve RPi.P7) "phosphoramidites" "reagentA") []
           fixed).
  - reflexivity.
  - reflexivity.
  - apply Forall_forall, (bool_decide_unpack _). by vm_compute.
  - reflexivity.
Defined.

(** C3 fails as stated: once a configurable entry named "Pump" has taken
    the key of the fixed switch, a valve wired to P11 is accepted. *)
Lemma C3_renamed_pump_counterexample :
  ∃ self,
    Pinout_new [("Pump", Valve RPi.P15); ("reagentA", Valve RPi.P11)] []
    = Return self
    ∧ dict_getitem "reagenta" (pins self) = Some (Valve RPi.P11)
    ∧ dict_getitem "pump" (pins self) = Some (Valve RPi.P15).
Proof. eexists. split_and!; reflexivity. Qed.

(** C3 as amended: a reagent valve on P11, the pin of the switch "pump". *)
Lemma duplicate_detection_variant_blind_witness :
  ∃ c0,
    c0 ∈ calls_of "fixed" fixed ++ []
           ++ [MkCall (Valve RPi.P11) "phosphoramidites" "reagentA"]
    ∧ Pinout_new [("reagentA", Valve RPi.P11)] []
      = Raise (ValueError (call_pin c0) (call_category c0) (call_sub_category c0)).
Proof.
  destruct (duplicate_detection_variant_blind (Board:=RPi.Board))
    as (_ & _ & Hpump & _).
  apply (Hpump [("reagentA", Valve RPi.P11)] []
           [] (MkCall (Valve RPi.P11) "phosphoramidites" "reagentA") []).
  - reflexivity.
  - reflexivity.
  - intros c Hc. by apply elem_of_nil in Hc.
Defined.

(** C4: the three spellings of "waste" on the registry without
    configurable devices. *)
Lemma get_case_insensitive_witness :
  ∃ self, Pinout_new (Board:=RPi.Board) [] [] = Return self
    ∧ ∃ sw, dict_getitem "waste" (pins self) = Some sw
            ∧ get self "Waste" = Return sw ∧ get self "waste" = Return sw
            ∧ get self "WASTE" = Return sw.
Proof.
  eexists. split; [reflexivity|].
  apply (get_case_insensitive (Board:=RPi.Board) [] []). reflexivity.
Defined.


(** C6 fails as stated: "A" and "a" are distinct names, both valves,
    yet the two entries share one key and [valves()] has 8 entries, not
    7 + 2. *)
Lemma C6_names_differing_in_case_counterexample :
  ∃ self,
    Pinout_new [("A", Valve RPi.P15)] [("a", Valve RPi.P16)] = Return self
    ∧ NoDup (keys (fixed ++ [("A", Valve RPi.P15)] ++ [("a", Valve RPi.P16)]))
    ∧ length (valves self) = 8
    ∧ 7 + (length [("A", Valve RPi.P15)] + length [("a", Valve RPi.P16)]) = 9.
Proof.
  eexists. split_and!.
  - reflexivity.
  - apply (bool_decide_unpack _). by vm_compute.
  - reflexivity.
  - reflexivity.
Qed.

(** C6 as amended: one reagent valve, K = 1. *)
Lemma valves_view_witness :
  ∃ self, Pinout_new [("reagentA", Valve RPi.P15)] [] = Return self
    ∧ length (valves self) = 7 + (1 + 0).
Proof.
  eexists. split; [reflexivity|].
  apply (valves_view [("reagentA", Valve RPi.P15)] []); [reflexivity| |].
  - intros name sw [[= -> ->]|Hin]%elem_of_cons; [done|].
    by apply elem_of_nil in Hin.
  - apply (bool_decide_unpack _). by vm_compute.
Defined.

(** C8 fails as stated: the same dictionary walked in two orders. *)
Lemma C8_order_counterexample :
  [("A", Valve RPi.P15); ("a", Valve RPi.P16); ("b", Valve RPi.P15)]
  ≡ₚ [("A", Valve RPi.P15); ("b", Valve RPi.P15); ("a", Valve RPi.P16)]
  ∧ (∃ self, Pinout_new []
       [("A", Valve RPi.P15); ("a", Valve RPi.P16); ("b", Valve RPi.P15)]
       = Return self)
  ∧ Pinout_new []
      [("A", Valve RPi.P15); ("b", Valve RPi.P15); ("a", Valve RPi.P16)]
    = Raise (ValueError (Valve RPi.P15) "reactants" "b").
Proof.
  split_and!.
  - apply perm_skip, perm_swap.
  - eexists. reflexivity.
  - reflexivity.
Qed.

(** C8 as amended: the two configurable maps exchanged. *)
Lemma construction_order_irrelevant_witness :
  is_Return (Pinout_init fixed [("a", Valve RPi.P15)] [("b", Valve RPi.P16)])
  ↔ is_Return (Pinout_init fixed [("b", Valve RPi.P16)] [("a", Valve RPi.P15)]).
Proof.
  apply (construction_order_irrelevant fixed
           [("a", Valve RPi.P15)] [("b", Valve RPi.P16)]
           fixed [("b", Valve RPi.P16)] [("a", Valve RPi.P15)]).
  - apply Permutation_app_head, perm_swap.
  - apply (bool_decide_unpack _). by vm_compute.
Defined.

(** C9: the construction that fails on the reagent valve wired to the
    pin of "waste" yields the exception, not the table of the eight
    fixed entries built so far. *)
Lemma failed_construction_yields_no_registry_witness :
  Pinout_new [("reagentA", Valve RPi.P7)] []
  = Raise (ValueError (Valve RPi.P7) "phosphoramidites" "reagentA").
Proof.
  apply (proj1 (failed_construction_yields_no_registry fixed
                  [("reagentA", Valve RPi.P7)] [])
           (calls_of "fixed" fixed)
           (MkCall (Valve RPi.P7) "phosphoramidites" "reagentA") []
           fixed); reflexivity.
Defined.

(** C10 fails as stated: "A" and "a" name valves on different pins, the
    construction succeeds, and P15, the pin of the earlier entry, is in
    the table all the same, brought back by the later entry "b". *)
Lemma C10_pin_brought_back_counterexample :
  ∃ self,
    Pinout_new [("A", Valve RPi.P15)]
               [("a", Valve RPi.P16); ("b", Valve RPi.P15)] = Return self
    ∧ dict_getitem "a" (pins self) = Some (Valve RPi.P16)
    ∧ RPi.P15 ∈ pins_of (pins self).
Proof.
  eexists. split_and!.
  - reflexivity.
  - reflexivity.
  - apply (bool_decide_unpack _). by vm_compute.
Qed.

(** C10 as amended: "A" and "a" name two valves on different pins, and
    no other entry is on P15. *)
Lemma name_collision_overwrites_witness :
  ∃ self, Pinout_new [("A", Valve RPi.P15)] [("a", Valve RPi.P16)] = Return self
    ∧ dict_getitem "a" (pins self) = Some (Valve RPi.P16)
    ∧ (RPi.P15 ∉ pins_of (pins self)).
Proof.
  destruct (name_collision_overwrites fixed
              [("A", Valve RPi.P15)] [("a", Valve RPi.P16)])
    as [Hsucceeds Hconstructed].
  destruct Hsucceeds as [self Hself].
  { apply (bool_decide_unpack _). by vm_compute. }
  exists self. split; [exact Hself|].
  destruct (Hconstructed self Hself) as [Hlast Hgone].
  split.
  - apply (Hlast (calls_of "fixed" fixed
                    ++ [MkCall (Valve RPi.P15) "phosphoramidites" "A"])
             (MkCall (Valve RPi.P16) "reactants" "a") []); [reflexivity|].
    intros c Hc. by apply elem_of_nil in Hc.
  - apply (Hgone (calls_of "fixed" fixed)
             (MkCall (Valve RPi.P15) "phosphoramidites" "A") []
             (MkCall (Valve RPi.P16) "reactants" "a") []);
      [reflexivity | reflexivity |].
    apply Forall_forall, (bool_decide_unpack _). by vm_compute.
Defined.

(** ** The further properties on the concrete header *)

(** X1: nine of the seventeen pins of the header are configurable. *)
Lemma configurable_pins_partition_witness :
  length (@list_configurable_pins RPi.Board _ _ _) + 8 = 17.
Proof.
  destruct (@configurable_pins_partition RPi.Board _ _ _) as (_ & _ & Hcount).
  apply Hcount. apply (bool_decide_unpack _). by vm_compute.
Defined.

(** X2: two reagent valves on listed pins. *)
Lemma configurable_wiring_constructs_witness :
  is_Return (Pinout_new [("reagentA", Valve RPi.P15)] [("reagentB", Valve RPi.P16)]).
Proof.
  apply configurable_wiring_constructs.
  - apply (bool_decide_unpack _). by vm_compute.
  - intros name sw Hin. apply (bool_decide_unpack _).
    repeat (apply elem_of_cons in Hin as [[= -> ->]|Hin]; [by vm_compute|]).
    by apply elem_of_nil in Hin.
  - apply (bool_decide_unpack _). by vm_compute.
Defined.

(** X3: with one reagent valve, "pump" is still the switch on pin 11. *)
Lemma fixed_bindings_protected_witness :
  ∃ self, Pinout_new [("reagentA", Valve RPi.P15)] [] = Return self
    ∧ get self "pump" = Return (Switch RPi.P11).
Proof.
  eexists. split; [reflexivity|].
  apply (fixed_bindings_protected [("reagentA", Valve RPi.P15)] []).
  - apply Forall_forall, (bool_decide_unpack _). by vm_compute.
  - reflexivity.
  - unfold items, fixed. do 7 right. left.
Defined.

(** X5: the reagent valve is found under any spelling of its name. *)
Lemma get_returns_last_entry_witness :
  ∃ self, Pinout_new [("reagentA", Valve RPi.P15)] [] = Return self
    ∧ get self "REAGENTA" = Return (Valve RPi.P15).
Proof.
  eexists. split; [reflexivity|].
  apply (get_returns_last_entry fixed [("reagentA", Valve RPi.P15)] []);
    [reflexivity|].
  exists (calls_of "fixed" fixed),
    (MkCall (Valve RPi.P15) "phosphoramidites" "reagentA"), [].
  split_and!; [reflexivity | reflexivity | reflexivity |].
  intros c Hc. by apply elem_of_nil in Hc.
Defined.

(** X6: the table of the registry with one reagent valve. *)
Lemma pins_in_walk_order_witness :
  ∃ self, Pinout_new [("reagentA", Valve RPi.P15)] [] = Return self
    ∧ pins self
      = [ ("waste", Valve RPi.P7); ("waste_rxn", Valve RPi.P5);
          ("prod", Valve RPi.P8); ("branch", Valve RPi.P12);
          ("rxn_out", Valve RPi.P13); ("sol", Valve RPi.P3);
          ("gas", Valve RPi.P10); ("pump", Switch RPi.P11);
          ("reagenta", Valve RPi.P15) ].
Proof.
  eexists. split; [reflexivity|].
  etransitivity.
  - apply (pins_in_walk_order fixed [("reagentA", Valve RPi.P15)] []);
      [|reflexivity].
    apply (bool_decide_unpack _). by vm_compute.
  - reflexivity.
Defined.

(** X7: "A" and "a" share one key, so ten input entries give at most ten
    table entries. *)
Lemma registry_keys_witness :
  ∃ self, Pinout_new [("A", Valve RPi.P15)] [("a", Valve RPi.P16)] = Return self
    ∧ (length (pins self) ≤ 8 + 1 + 1)%nat.
Proof.
  eexists. split; [reflexivity|].
  apply (registry_keys fixed [("A", Valve RPi.P15)] [("a", Valve RPi.P16)]).
  reflexivity.
Defined.

(** X8: "pump" is no key of [valves()]. *)
Lemma valves_lookup_witness :
  ∃ self, Pinout_new (Board:=RPi.Board) [] [] = Return self
    ∧ dict_getitem "pump" (valves self) = None.
Proof.
  eexists. split; [reflexivity|].
  etransitivity.
  - apply (valves_lookup (Board:=RPi.Board) fixed [] [] _ "pump"). reflexivity.
  - reflexivity.
Defined.

(** X9: a second [init_pinout()] stops at "waste". *)
Lemma init_pinout_again_raises_witness :
  ∃ self, Pinout_new (Board:=RPi.Board) [] [] = Return self
    ∧ init_pinout self = Raise (ValueError (Valve RPi.P7) "fixed" "waste").
Proof.
  eexists. split; [reflexivity|].
  apply (init_pinout_again_raises (Board:=RPi.Board) fixed [] [] _
           (MkCall (Valve RPi.P7) "fixed" "waste")
           (tail (calls_of "fixed" fixed))).
  - reflexivity.
  - reflexivity.
  - apply Forall_forall, (bool_decide_unpack _). by vm_compute.
Defined.

(** X10: with a [Seq] that accepts every value, "ATCG" passes and "AT" is
    too short. *)
Lemma ValidSeq_accepts_iff_witness :
  ValidSeq_call (λ _, None) "ATCG" = Return tt
  ∧ ValidSeq_call (λ _, None) "AT"
    = Raise (MkValidationError "Sequence must be at least 3 bases long").
Proof.
  split.
  - apply (ValidSeq_accepts_iff (λ _, None) "ATCG"). simpl. split; [done | lia].
  - apply (ValidSeq_accepts_iff (λ _, None) "AT"); [done | simpl; lia].
Defined.

(** X11: "ReagentA" and "REAGENTA" give the same table. *)
Lemma construction_ignores_case_witness :
  ∃ self, Pinout_new [("ReagentA", Valve RPi.P15)] [] = Return self
    ∧ Pinout_new [("REAGENTA", Valve RPi.P15)] []
      = Return (MkPinout fixed [("REAGENTA", Valve RPi.P15)] [] (pins self)).
Proof.
  eexists. split; [reflexivity|].
  apply (construction_ignores_case fixed [("ReagentA", Valve RPi.P15)] []
           fixed [("REAGENTA", Valve RPi.P15)] []).
  - unfold same_entries. apply Forall2_same_length_lookup_2; [done|].
    intros i kv kv' Hkv Hkv'. by simplify_eq.
  - by repeat constructor.
  - constructor.
  - reflexivity.
Defined.
